(** * AFAD GYS quiz page: question preparation and exam session

    A shallow embedding of [src/app/quiz/[slug]/page.tsx] (component
    [QuizPage] and its helpers [removeDuplicateQuestions] and
    [secureShuffleArray]) and of the types of [lib/types], followed by
    the properties of the question-set preparer and of the exam session.

    Conventions of the embedding.
    - A JavaScript [number] is [NaN], an infinity or a double with an
      integer value ([Num z]); every number of the modelled code is the
      result of [parseInt], of a product or a difference of such results,
      or of a list length. The product, the difference and [parseInt]
      round to the nearest double as IEEE 754 does, so they are exact on
      the safe integers and round beyond 2^53. The two zeros are one.
    - A JavaScript string is a Rocq [string], the bytes of its UTF-8
      encoding. [String.prototype.trim] and
      [toLowerCase] are members of the class [JSString]; the theorems hold
      for every instance, and the ASCII instance is used for concrete runs.
    - An array is a list; an optional field is an [option].
    - React state is the record [Session]; every handler is a function on
      it, and the ambient sources ([Date.now], [Math.random], [fetch],
      [crypto.getRandomValues]) are explicit arguments. *)

From Stdlib Require Import ZArith Lia Ascii.
From stdpp Require Import base decidable option numbers list sorting gmap strings pretty.

Local Open Scope Z_scope.

(** ** JavaScript values *)

Inductive number : Type :=
  | NaN
  | Num (z : Z)
  | Infinity (negative : bool).

Global Instance number_eq_dec : EqDecision number.
Proof. solve_decision. Defined.

(** [Number.MAX_SAFE_INTEGER]: 2^53 - 1. *)
Definition MAX_SAFE_INTEGER : Z := 9007199254740991.

(** The Number value for an integer [x]: [x] itself up to 2^53, beyond it
    the nearest double, which has a significand [q] of 53 bits and an
    exponent [e], the tie going to the even significand; an infinity when
    the rounded value reaches 2^1024. *)
Definition Number_of (x : Z) : number :=
  let m := Z.abs x in
  if m <=? MAX_SAFE_INTEGER then Num x
  else
    let e := Z.log2 m - 52 in
    let q := m / 2 ^ e in
    let r := m mod 2 ^ e in
    let half := 2 ^ (e - 1) in
    let q' := if (r <? half) || ((r =? half) && Z.even q) then q else q + 1 in
    if 2 ^ 1024 <=? q' * 2 ^ e then Infinity (x <? 0)
    else Num (Z.sgn x * (q' * 2 ^ e)).

(** [a * b] on numbers: the exact product, rounded. *)
Definition num_mul (a b : number) : number :=
  match a, b with
  | NaN, _ | _, NaN => NaN
  | Num x, Num y => Number_of (x * y)
  | Infinity negative, Num y | Num y, Infinity negative =>
      if y =? 0 then NaN else Infinity (xorb negative (y <? 0))
  | Infinity negative, Infinity negative' => Infinity (xorb negative negative')
  end.

(** [a - b] on numbers: the exact difference, rounded. *)
Definition num_sub (a b : number) : number :=
  match a, b with
  | NaN, _ | _, NaN => NaN
  | Num x, Num y => Number_of (x - y)
  | Infinity negative, Num _ => Infinity negative
  | Num _, Infinity negative => Infinity (negb negative)
  | Infinity negative, Infinity negative' =>
      if bool_decide (negative = negative') then NaN else Infinity negative
  end.

(** [a <= b]: every comparison with [NaN] is false. *)
Definition num_le (a b : number) : bool :=
  match a, b with
  | NaN, _ | _, NaN => false
  | Num x, Num y => x <=? y
  | Infinity negative, Num _ => negative
  | Num _, Infinity negative => negb negative
  | Infinity negative, Infinity negative' => negative || negb negative'
  end.

(** [a > b]. *)
Definition num_gt (a b : number) : bool :=
  match a, b with
  | NaN, _ | _, NaN => false
  | Num x, Num y => y <? x
  | Infinity negative, Num _ => negb negative
  | Num _, Infinity negative => negative
  | Infinity negative, Infinity negative' => negb negative && negative'
  end.

(** [Math.min(a, b)]: [NaN] as soon as one argument is. *)
Definition Math_min (a b : number) : number :=
  match a, b with
  | NaN, _ | _, NaN => NaN
  | Num x, Num y => Num (Z.min x y)
  | Infinity negative, Num y | Num y, Infinity negative =>
      if negative then Infinity true else Num y
  | Infinity negative, Infinity negative' => Infinity (negative || negative')
  end.

(** The string methods of the runtime that the page calls. *)
Class JSString := {
  trim : string -> string;
  toLowerCase : string -> string
}.

(** [arr.join(sep)] on an array of strings. *)
Fixpoint join (sep : string) (arr : list string) : string :=
  match arr with
  | [] => ""
  | [s] => s
  | s :: rest => s +:+ sep +:+ join sep rest
  end.

(** The default comparison of [Array.prototype.sort]: strings in the order
    of their code units. *)
Definition string_le (a b : string) : Prop := String.leb a b = true.

Global Instance string_le_dec : RelDecision string_le.
Proof. intros a b. unfold string_le. apply _. Defined.

(** [arr.sort()] on an array of strings. *)
Definition sort (arr : list string) : list string := merge_sort string_le arr.

(** [arr[i]] for a number [i]: [undefined] ([None]) outside the array. *)
Definition array_get {A} (arr : list A) (i : Z) : option A :=
  if i <? 0 then None else arr !! Z.to_nat i.

(** [arr.slice(0, end)]: a negative [end] counts from the end of the
    array, [NaN] is read as 0, and the infinities as the two ends. *)
Definition slice0 {A} (arr : list A) (e : number) : list A :=
  let len := Z.of_nat (length arr) in
  let final :=
    match e with
    | Infinity negative => if negative then 0 else len
    | NaN => 0
    | Num relativeEnd =>
        if relativeEnd <? 0 then Z.max (len + relativeEnd) 0
        else Z.min relativeEnd len
    end in
  take (Z.to_nat final) arr.

(** [arr.findIndex(p)]: the first index whose element satisfies [p], or -1. *)
Fixpoint findIndex_from {A} (p : A -> bool) (arr : list A) (k : nat) : Z :=
  match arr with
  | [] => -1
  | x :: rest => if p x then Z.of_nat k else findIndex_from p rest (S k)
  end.

Definition findIndex {A} (p : A -> bool) (arr : list A) : Z :=
  findIndex_from p arr 0.

(** [arr.filter((x, index, self) => p(x, index, self))]. *)
Fixpoint filter_from {A} (p : A -> nat -> bool) (arr : list A) (k : nat) : list A :=
  match arr with
  | [] => []
  | x :: rest =>
      if p x k then x :: filter_from p rest (S k) else filter_from p rest (S k)
  end.

Definition filter_indexed {A} (p : A -> nat -> list A -> bool) (arr : list A) : list A :=
  filter_from (fun x index => p x index arr) arr 0.

(** ** Data model ([lib/types]) *)

Record Question : Type := {
  id : option string;
  question : string;
  options : list string;
  answer : string;
  explanation : option string
}.

Record QuizAnswer : Type := {
  questionIndex : Z;
  selectedAnswer : string;
  isCorrect : bool
}.

Global Instance Question_eq_dec : EqDecision Question.
Proof. solve_decision. Defined.

Global Instance QuizAnswer_eq_dec : EqDecision QuizAnswer.
Proof. solve_decision. Defined.

(** [{ ...question, id: newId }]. *)
Definition with_id (q : Question) (newId : string) : Question :=
  {| id := Some newId;
     question := question q;
     options := options q;
     answer := answer q;
     explanation := explanation q |}.

(** [a || b] for an optional string [a]: [undefined] and the empty string
    are falsy. *)
Definition or_else (a : option string) (b : string) : string :=
  match a with
  | Some s => if decide (s = "") then b else s
  | None => b
  end.

(** ** Ambient sources *)

(** What [removeDuplicateQuestions] reads from the environment while it
    builds an id in the callback of index [i]: the value of [Date.now()]
    and the base-36 digits of the fraction of [Math.random()]. Each index
    runs the callback once, so a function of the index stands for the
    sequence of draws. *)
Record Ambient : Type := {
  Date_now : nat -> Z;
  Math_random36 : nat -> list nat
}.

Definition base36_alphabet : list ascii :=
  String.list_ascii_of_string "0123456789abcdefghijklmnopqrstuvwxyz".

Definition base36_char (d : nat) : ascii :=
  nth (Nat.modulo d 36) base36_alphabet "0"%char.

(** [Math.random().toString(36).substr(2, 9)]: at most nine base-36 digits
    of the fraction (none when the draw is 0). *)
Definition random_suffix (amb : Ambient) (index : nat) : string :=
  String.string_of_list_ascii (base36_char <$> take 9 (Math_random36 amb index)).

(** [`q_${Date.now()}_${index}_${Math.random().toString(36).substr(2, 9)}`] *)
Definition generated_id (amb : Ambient) (index : nat) : string :=
  "q_" +:+ pretty (Date_now amb index) +:+ "_" +:+ pretty index +:+ "_"
    +:+ random_suffix amb index.

(** ** Question set preparer *)

Section Preparer.
Context `{JSString}.
Variable amb : Ambient.

(** [`${question.question.trim().toLowerCase()}|${question.options
      .map(opt => opt.trim().toLowerCase()).sort().join('|')}`] *)
Definition questionKey (question0 : Question) : string :=
  toLowerCase (trim (question question0)) +:+ "|" +:+
  join "|" (sort ((fun opt => toLowerCase (trim opt)) <$> options question0)).

(** The body of [questions.forEach((question, index) => ...)], with the
    two locals [seen] and [uniqueQuestions] of the enclosing function. *)
Fixpoint forEach_question (questions : list Question) (index : nat)
    (seen : gset string) (uniqueQuestions : list Question) : list Question :=
  match questions with
  | [] => uniqueQuestions
  | question0 :: rest =>
      let key := questionKey question0 in
      if decide (key ∈ seen) then
        forEach_question rest (S index) seen uniqueQuestions
      else
        forEach_question rest (S index) ({[key]} ∪ seen)
          (uniqueQuestions ++
             [with_id question0 (or_else (id question0) (generated_id amb index))])
  end.

Definition removeDuplicateQuestions (questions : list Question) : list Question :=
  forEach_question questions 0 ∅ [].
End Preparer.

(** The local function [getRandomInt(max)] of [secureShuffleArray]: the
    index drawn when the loop asks for one below [max]. Both branches of
    the source stay below [max]: [cryptoArray[0] % max] and
    [Math.floor(Math.random() * max)], [Math.random()] being below 1. The
    loop asks once for each [max], so a function of [max] stands for the
    sequence of draws. *)
Record RandomSource : Type := {
  getRandomInt : nat -> nat;
  getRandomInt_range : forall max : nat, (0 < max)%nat -> (getRandomInt max < max)%nat
}.

Section Shuffle.
Context {T : Type}.
Variable rng : RandomSource.

(** [[shuffled[i], shuffled[j]] = [shuffled[j], shuffled[i]]]. The loop
    only swaps inside the array ([swap_inside] below); an index outside,
    where JavaScript would store [undefined], is not in the model and
    leaves the list as it is. *)
Definition swap (shuffled : list T) (i j : nat) : list T :=
  match shuffled !! i, shuffled !! j with
  | Some vi, Some vj => <[j:=vi]> (<[i:=vj]> shuffled)
  | _, _ => shuffled
  end.

(** [for (let i = ...; i > 0; i--) { const j = getRandomInt(i + 1); swap }] *)
Fixpoint shuffle_loop (i : nat) (shuffled : list T) : list T :=
  match i with
  | O => shuffled
  | S i' => shuffle_loop i' (swap shuffled i (getRandomInt rng (i + 1)))
  end.

Definition secureShuffleArray (array : list T) : list T :=
  let shuffled := array in
  shuffle_loop (length shuffled - 1) shuffled.
End Shuffle.

(** The branch of [getRandomInt] taken when [window.crypto] exists:
    [cryptoArray[0] % max], for the 32-bit draw made for [max]. *)
Definition getRandomInt_crypto (getRandomValues : nat -> N) (max : nat) : nat :=
  N.to_nat (getRandomValues max `mod` N.of_nat max)%N.

Definition WebCrypto (getRandomValues : nat -> N) : RandomSource.
Proof.
  refine {| getRandomInt := getRandomInt_crypto getRandomValues |}.
  intros max Hmax. unfold getRandomInt_crypto.
  pose proof (N.mod_upper_bound (getRandomValues max) (N.of_nat max)).
  lia.
Defined.

(** ** Loading the questions ([loadQuestions] of the second effect hook) *)

(** What a [try] block can throw in [loadQuestions]. *)
Inductive Exn : Type :=
  | FetchRejected
  | HttpError (status : Z)
  | JsonRejected.

Inductive LogLabel : Type :=
  | TotalCount | UniqueCount | DuplicateCount
  | RequestedCount | SelectedCount | FinalCount.

(** The observable actions of [loadQuestions], in program order. *)
Inductive Effect : Type :=
  | FetchCall (url : string)
  | ConsoleLog (label : LogLabel) (value : number)
  | ConsoleWarn (requested : number) (unique : nat) (available : number)
  | ConsoleError (error : Exn)
  | SetTopicQuestions (questions : list Question).

(** A computation that performs effects and then returns or throws. *)
Definition Async (A : Type) : Type := (list Effect * (Exn + A))%type.

Definition ret {A} (a : A) : Async A := ([], inr a).

Definition throw {A} (e : Exn) : Async A := ([], inl e).

Definition emit (eff : Effect) : Async unit := ([eff], inr tt).

Definition bind {A B} (c : Async A) (k : A -> Async B) : Async B :=
  match c with
  | (tr, inl e) => (tr, inl e)
  | (tr, inr a) => let '(tr', r) := k a in (tr ++ tr', r)
  end.

(** [try { body } catch (error) { handler(error) }] *)
Definition try_catch {A} (body : Async A) (handler : Exn -> Async A) : Async A :=
  match body with
  | (tr, inl e) => let '(tr', r) := handler e in (tr ++ tr', r)
  | (tr, inr a) => (tr, inr a)
  end.

Declare Scope async_scope.
Delimit Scope async_scope with async.
Notation "x <- c ;; k" := (bind c (fun x => k))
  (at level 100, c at next level, right associativity) : async_scope.
Notation "c ;;; k" := (bind c (fun _ => k))
  (at level 100, right associativity) : async_scope.

(** A response of the question store: [response.ok], [response.status]
    and the outcome of [response.json()] ([None] when that promise
    rejects). *)
Record Response : Type := {
  ok : bool;
  status : Z;
  json : option (list Question)
}.

(** The question store: what [fetch(url)] settles to ([None] when the
    promise rejects on a transport failure). *)
Definition Store : Type := string -> option Response.

Definition fetch (store : Store) (url : string) : Async Response :=
  bind (emit (FetchCall url))
       (fun _ => match store url with
                 | Some response => ret response
                 | None => throw FetchRejected
                 end).

Definition response_json (response : Response) : Async (list Question) :=
  match json response with
  | Some q => ret q
  | None => throw JsonRejected
  end.

(** [`/data/questions/${params.slug}.json`] *)
Definition url_of (slug : string) : string := "/data/questions/" +:+ slug +:+ ".json".

Definition same_id (a b : Question) : bool := bool_decide (id a = id b).

Definition array_length {A} (arr : list A) : number := Num (Z.of_nat (length arr)).

Section LoadQuestions.
Context `{JSString}.
Variable amb : Ambient.
Variable rng : RandomSource.
Variable store : Store.

Local Open Scope async_scope.

(** The values computed between the fetch and the state update. *)
Definition uniqueQuestions_of (q : list Question) : list Question :=
  removeDuplicateQuestions amb q.

Definition shuffledQuestions_of (q : list Question) : list Question :=
  secureShuffleArray rng (uniqueQuestions_of q).

Definition availableQuestions_of (questionCount : number) (q : list Question) : number :=
  Math_min questionCount (array_length (shuffledQuestions_of q)).

Definition quizQuestions_of (questionCount : number) (q : list Question) : list Question :=
  slice0 (shuffledQuestions_of q) (availableQuestions_of questionCount q).

Definition finalQuestions_of (questionCount : number) (q : list Question) : list Question :=
  filter_indexed
    (fun question0 index self =>
       Z.of_nat index =? findIndex (fun q0 => same_id q0 question0) self)
    (quizQuestions_of questionCount q).

Definition loadQuestions (slug : string) (questionCount : number) : Async unit :=
  try_catch
    (response <- fetch store (url_of slug) ;;
     (if negb (ok response) then throw (HttpError (status response)) else ret tt) ;;;
     q <- response_json response ;;
     let uniqueQuestions := uniqueQuestions_of q in
     emit (ConsoleLog TotalCount (array_length q)) ;;;
     emit (ConsoleLog UniqueCount (array_length uniqueQuestions)) ;;;
     emit (ConsoleLog DuplicateCount
             (num_sub (array_length q) (array_length uniqueQuestions))) ;;;
     let availableQuestions := availableQuestions_of questionCount q in
     let quizQuestions := quizQuestions_of questionCount q in
     let finalQuestions := finalQuestions_of questionCount q in
     emit (ConsoleLog RequestedCount questionCount) ;;;
     emit (ConsoleLog SelectedCount (array_length quizQuestions)) ;;;
     emit (ConsoleLog FinalCount (array_length finalQuestions)) ;;;
     (if num_gt questionCount (array_length uniqueQuestions)
      then emit (ConsoleWarn questionCount (length uniqueQuestions) availableQuestions)
      else ret tt) ;;;
     emit (SetTopicQuestions finalQuestions) ;;;
     emit (SetTopicQuestions quizQuestions))
    (fun error =>
       emit (ConsoleError error) ;;;
       emit (SetTopicQuestions [])).
End LoadQuestions.

(** ** The count parameter *)

(** [searchParams.get(name)]: the first value of the name in the query
    string, [null] ([None]) when the name is absent. *)
Fixpoint searchParams_get (searchParams : list (string * string)) (name : string)
    : option string :=
  match searchParams with
  | [] => None
  | (k, v) :: rest => if decide (k = name) then Some v else searchParams_get rest name
  end.

(** The white space that [parseInt] and [trim] skip ([WhiteSpace] and
    [LineTerminator] of the language), in UTF-8. One byte: TAB, LF, VT,
    FF, CR and SP. *)
Definition is_white_space (c : ascii) : bool :=
  let n := nat_of_ascii c in
  ((9 <=? n) && (n <=? 13))%nat || (n =? 32)%nat.

(** Two bytes: U+00A0, the no-break space. *)
Definition is_white_space2 (c1 c2 : ascii) : bool :=
  ((nat_of_ascii c1 =? 194) && (nat_of_ascii c2 =? 160))%nat.

(** Three bytes: U+1680, U+2000 to U+200A, U+2028, U+2029, U+202F, U+205F,
    U+3000 and U+FEFF. *)
Definition is_white_space3 (c1 c2 c3 : ascii) : bool :=
  let n1 := nat_of_ascii c1 in
  let n2 := nat_of_ascii c2 in
  let n3 := nat_of_ascii c3 in
  (((n1 =? 225) && (n2 =? 154) && (n3 =? 128))
   || ((n1 =? 226) && (n2 =? 128) &&
       (((128 <=? n3) && (n3 <=? 138)) || (n3 =? 168) || (n3 =? 169) || (n3 =? 175)))
   || ((n1 =? 226) && (n2 =? 129) && (n3 =? 159))
   || ((n1 =? 227) && (n2 =? 128) && (n3 =? 128))
   || ((n1 =? 239) && (n2 =? 187) && (n3 =? 191)))%nat.

Fixpoint trim_start (s : string) : string :=
  match s with
  | String c1 rest1 =>
      if is_white_space c1 then trim_start rest1
      else
        match rest1 with
        | String c2 rest2 =>
            if is_white_space2 c1 c2 then trim_start rest2
            else
              match rest2 with
              | String c3 rest3 =>
                  if is_white_space3 c1 c2 c3 then trim_start rest3 else s
              | EmptyString => s
              end
        | EmptyString => s
        end
  | EmptyString => s
  end.

Definition digit_value (c : ascii) : option Z :=
  let n := nat_of_ascii c in
  if ((48 <=? n) && (n <=? 57))%nat then Some (Z.of_nat n - 48) else None.

(** The value of the longest prefix of decimal digits, [None] when the
    prefix is empty. *)
Fixpoint digits_prefix (s : string) (acc : option Z) : option Z :=
  match s with
  | String c rest =>
      match digit_value c with
      | Some d => digits_prefix rest (Some (10 * default 0 acc + d))
      | None => acc
      end
  | EmptyString => acc
  end.

(** [parseInt(s, 10)]: leading white space, an optional sign, then as many
    decimal digits as there are; [NaN] when there is no digit, else the
    Number value for the signed integer that the digits write. The zero
    of ["-0"] is the plain zero. *)
Definition parseInt (s : string) : number :=
  let s1 := trim_start s in
  let '(sign, s2) :=
    match s1 with
    | String "-" rest => (-1, rest)
    | String "+" rest => (1, rest)
    | _ => (1, s1)
    end in
  match digits_prefix s2 None with
  | Some mathInt => Number_of (sign * mathInt)
  | None => NaN
  end.

(** [parseInt(searchParams.get('count') || '20', 10)] *)
Definition questionCount_of (searchParams : list (string * string)) : number :=
  parseInt (or_else (searchParams_get searchParams "count") "20").

(** ** Exam session ([QuizPage]) *)

Definition calculateTimeLimit (count : number) : number :=
  let timePerQuestion := Num 30 in
  num_mul count timePerQuestion.

(** The six [useState] cells of the component. *)
Record Session : Type := {
  topicQuestions : list Question;
  answers : list QuizAnswer;
  isSubmitted : bool;
  timeLeft : number;
  isTimeUp : bool;
  showSubmitConfirm : bool
}.

(** The initial values given to [useState]. *)
Definition initialSession (questionCount : number) : Session :=
  {| topicQuestions := [];
     answers := [];
     isSubmitted := false;
     timeLeft := calculateTimeLimit questionCount;
     isTimeUp := false;
     showSubmitConfirm := false |}.

Definition setTopicQuestions (s : Session) (v : list Question) : Session :=
  {| topicQuestions := v; answers := answers s; isSubmitted := isSubmitted s;
     timeLeft := timeLeft s; isTimeUp := isTimeUp s;
     showSubmitConfirm := showSubmitConfirm s |}.

Definition setAnswers (s : Session) (v : list QuizAnswer) : Session :=
  {| topicQuestions := topicQuestions s; answers := v; isSubmitted := isSubmitted s;
     timeLeft := timeLeft s; isTimeUp := isTimeUp s;
     showSubmitConfirm := showSubmitConfirm s |}.

Definition setIsSubmitted (s : Session) (v : bool) : Session :=
  {| topicQuestions := topicQuestions s; answers := answers s; isSubmitted := v;
     timeLeft := timeLeft s; isTimeUp := isTimeUp s;
     showSubmitConfirm := showSubmitConfirm s |}.

Definition setTimeLeft (s : Session) (v : number) : Session :=
  {| topicQuestions := topicQuestions s; answers := answers s;
     isSubmitted := isSubmitted s; timeLeft := v; isTimeUp := isTimeUp s;
     showSubmitConfirm := showSubmitConfirm s |}.

Definition setIsTimeUp (s : Session) (v : bool) : Session :=
  {| topicQuestions := topicQuestions s; answers := answers s;
     isSubmitted := isSubmitted s; timeLeft := timeLeft s; isTimeUp := v;
     showSubmitConfirm := showSubmitConfirm s |}.

Definition setShowSubmitConfirm (s : Session) (v : bool) : Session :=
  {| topicQuestions := topicQuestions s; answers := answers s;
     isSubmitted := isSubmitted s; timeLeft := timeLeft s; isTimeUp := isTimeUp s;
     showSubmitConfirm := v |}.

(** The branch [prev <= 1] of the timer callback: [setIsTimeUp(true)],
    [setIsSubmitted(true)], and 0 as the new [timeLeft]. *)
Definition expired (s : Session) : Session :=
  setTimeLeft (setIsSubmitted (setIsTimeUp s true) true) (Num 0).

(** The callback of [setInterval]: the updater given to [setTimeLeft]. *)
Definition timer_callback (s : Session) : Session :=
  let prev := timeLeft s in
  if num_le prev (Num 1) then expired s
  else setTimeLeft s (num_sub prev (Num 1)).

(** The timer effect installs the interval only when
    [isSubmitted || isTimeUp] is false, and clears it when either changes. *)
Definition timer_running (s : Session) : bool :=
  negb (isSubmitted s || isTimeUp s).

(** One second passes. *)
Definition tick (s : Session) : Session :=
  if timer_running s then timer_callback s else s.

(** The object literal [{ questionIndex, selectedAnswer, isCorrect }]. *)
Definition answer_entry (i : Z) (sel : string) (c : bool) : QuizAnswer :=
  {| questionIndex := i; selectedAnswer := sel; isCorrect := c |}.

(** The updater passed to [setAnswers] by [handleAnswer]: when
    [prev.find] meets an entry of the index, [prev.map] rewrites the
    entries of the index ([{ ...a, selectedAnswer, isCorrect }]); when it
    meets none, the new entry is appended. *)
Definition upsert_answer (questionIndex0 : Z) (selectedAnswer0 : string)
    (isCorrect0 : bool) (prev : list QuizAnswer) : list QuizAnswer :=
  match List.find (fun a => questionIndex a =? questionIndex0) prev with
  | Some existing =>
      (fun a =>
         if questionIndex a =? questionIndex0
         then answer_entry (questionIndex a) selectedAnswer0 isCorrect0
         else a) <$> prev
  | None =>
      prev ++ [answer_entry questionIndex0 selectedAnswer0 isCorrect0]
  end.

(** Reading [question.answer] when [question] is [undefined]. *)
Inductive TypeError : Type := CannotReadProperty.

Definition handleAnswer (s : Session) (questionIndex0 : Z) (selectedAnswer0 : string)
    : TypeError + Session :=
  if isSubmitted s then inr s
  else
    match array_get (topicQuestions s) questionIndex0 with
    | None => inl CannotReadProperty
    | Some question0 =>
        let isCorrect0 := String.eqb selectedAnswer0 (answer question0) in
        inr (setAnswers s
               (upsert_answer questionIndex0 selectedAnswer0 isCorrect0 (answers s)))
    end.

Definition handleSubmitRequest (s : Session) : Session :=
  setShowSubmitConfirm s true.

Definition handleSubmit (s : Session) : Session :=
  setIsSubmitted (setShowSubmitConfirm s false) true.

Definition handleSubmitCancel (s : Session) : Session :=
  setShowSubmitConfirm s false.

Definition handleRestart (questionCount : number) (s : Session) : Session :=
  setIsTimeUp
    (setTimeLeft
       (setIsSubmitted (setAnswers s []) false)
       (calculateTimeLimit questionCount))
    false.

(** The states of the session that the specification names, read off the
    flags. *)
Inductive State : Type := Active | ConfirmPending | Submitted.

Definition state_of (s : Session) : State :=
  if isSubmitted s then Submitted
  else if showSubmitConfirm s then ConfirmPending
  else Active.

(** What can happen to a mounted page; [Loaded] is the state update of a
    [loadQuestions] that settles. *)
Inductive Event : Type :=
  | Tick
  | Answer (questionIndex0 : Z) (selectedAnswer0 : string)
  | SubmitRequest
  | Submit
  | SubmitCancel
  | Restart
  | Loaded (questions : list Question).

(** The session after an event; a handler that throws leaves the state as
    it was. *)
Definition step (questionCount : number) (s : Session) (e : Event) : Session :=
  match e with
  | Tick => tick s
  | Answer i o => match handleAnswer s i o with inr s' => s' | inl _ => s end
  | SubmitRequest => handleSubmitRequest s
  | Submit => handleSubmit s
  | SubmitCancel => handleSubmitCancel s
  | Restart => handleRestart questionCount s
  | Loaded questions => setTopicQuestions s questions
  end.

Definition run (questionCount : number) (s : Session) (es : list Event) : Session :=
  fold_left (step questionCount) es s.

(** [n] seconds pass. *)
Definition ticks (n : nat) (s : Session) : Session := Nat.iter n tick s.

(** The state updates of a settled [loadQuestions], applied in order. *)
Definition apply_effect (s : Session) (eff : Effect) : Session :=
  match eff with
  | SetTopicQuestions questions => setTopicQuestions s questions
  | _ => s
  end.

Definition settle (s : Session) (c : Async unit) : Session :=
  fold_left apply_effect (fst c) s.

Section Mount.
Context `{JSString}.
Variable amb : Ambient.
Variable rng : RandomSource.
Variable store : Store.

(** The session once the page is mounted for [slug] with the query string
    [searchParams] and its load has settled. *)
Definition mounted (slug : string) (searchParams : list (string * string)) : Session :=
  let questionCount := questionCount_of searchParams in
  settle (initialSession questionCount)
         (loadQuestions amb rng store slug questionCount).
End Mount.

(** ** A runtime for concrete runs: the string methods on ASCII text *)

Definition ascii_lower (c : ascii) : ascii :=
  let n := nat_of_ascii c in
  if ((65 <=? n) && (n <=? 90))%nat then ascii_of_nat (n + 32) else c.

Fixpoint string_map (f : ascii -> ascii) (s : string) : string :=
  match s with
  | String c rest => String (f c) (string_map f rest)
  | EmptyString => EmptyString
  end.

Definition trim_end (s : string) : string := String.rev (trim_start (String.rev s)).

Definition ascii_strings : JSString :=
  {| trim := fun s => trim_end (trim_start s);
     toLowerCase := string_map ascii_lower |}.

Definition fixed_ambient : Ambient :=
  {| Date_now := fun _ => 1700000000000; Math_random36 := fun i => [i; 7; 35]%nat |}.

(** ** Vocabulary of the statements *)

Section PreparerVocabulary.
Context `{JSString}.
Variable amb : Ambient.

(** The element that [removeDuplicateQuestions] pushes for the question
    met at an index. *)
Definition backfill (iq : nat * Question) : Question :=
  with_id iq.2 (or_else (id iq.2) (generated_id amb iq.1)).

(** The question met at an index is the first of [questions] with its key. *)
Definition first_seen (questions : list Question) (iq : nat * Question) : Prop :=
  questionKey iq.2 ∉ questionKey <$> take iq.1 questions.

(** The key of the question met at an index. *)
Definition key_at (iq : nat * Question) : string := questionKey iq.2.

Global Instance first_seen_dec questions iq : Decision (first_seen questions iq).
Proof. unfold first_seen. apply _. Defined.

(** The questions that are the first with their key, with their indices,
    in the order of the input. *)
Definition first_occurrences (questions : list Question) : list (nat * Question) :=
  filter (first_seen questions) (imap pair questions).

(** The same for the questions [qs] that follow a prefix [pre]. *)
Definition first_occurrences_from (pre qs : list Question) : list (nat * Question) :=
  filter (first_seen (pre ++ qs)) (imap (fun n => pair (length pre + n)%nat) qs).
End PreparerVocabulary.

(** The fetch fails: the promise rejects, the response is not [ok], or its
    body is not JSON. *)
Definition fetch_fails (store : Store) (slug : string) : Prop :=
  match store (url_of slug) with
  | None => True
  | Some response => ok response = false \/ json response = None
  end.

Definition is_fetch_call (eff : Effect) : bool :=
  match eff with
  | FetchCall _ => true
  | _ => false
  end.

Definition is_console (eff : Effect) : bool :=
  match eff with
  | ConsoleLog _ _ | ConsoleWarn _ _ _ | ConsoleError _ => true
  | _ => false
  end.

(** The number of calls of [fetch] in a run. *)
Definition fetch_calls (c : Async unit) : nat :=
  length (List.filter is_fetch_call (fst c)).

(** A question that brings no id of its own: the field is missing or empty. *)
Definition lacks_id (q : Question) : Prop := id q = None \/ id q = Some "".

Fixpoint has_char (c : ascii) (s : string) : bool :=
  match s with
  | String c' rest => bool_decide (c' = c) || has_char c rest
  | EmptyString => false
  end.

(** ** Sample data for concrete runs *)

Definition mkQuestion (i : option string) (text : string) (opts : list string)
    (ans : string) : Question :=
  {| id := i; question := text; options := opts; answer := ans;
     explanation := None |}.

(** Two different questions of one file that carry the same id. *)
Definition twin_a : Question := mkQuestion (Some "a") "Q1" ["x"; "y"] "x".
Definition twin_b : Question := mkQuestion (Some "a") "Q2" ["x"; "y"] "y".

(** Three different questions without ids. *)
Definition plain_1 : Question := mkQuestion None "P1" ["x"; "y"] "x".
Definition plain_2 : Question := mkQuestion None "P2" ["x"; "y"] "y".
Definition plain_3 : Question := mkQuestion (Some "") "P3" ["x"; "y"] "y".

(** A source whose every draw is 0, and a store that serves one topic. *)
Definition zero_draws : RandomSource := WebCrypto (fun _ => 0%N).

Definition store_of (slug : string) (questions : list Question) : Store :=
  fun url =>
    if decide (url = url_of slug)
    then Some {| ok := true; status := 200; json := Some questions |}
    else None.

(** ** The rest of the page: derived values, screens and display helpers *)

(** [answers.find(a => a.questionIndex === questionIndex)] *)
Definition getAnswerForQuestion (s : Session) (questionIndex0 : Z) : option QuizAnswer :=
  List.find (fun a => questionIndex a =? questionIndex0) (answers s).

(** [answers.filter(a => a.isCorrect).length] *)
Definition score (s : Session) : nat := length (List.filter isCorrect (answers s)).

(** [answers.length] *)
Definition answeredCount (s : Session) : nat := length (answers s).

(** What the component returns: the loading screen as long as
    [topicQuestions.length === 0], else the questions or, once submitted,
    the results. *)
Inductive Screen : Type := LoadingScreen | QuizScreen | ResultsScreen.

Definition screen_of (s : Session) : Screen :=
  if decide (length (topicQuestions s) = 0%nat) then LoadingScreen
  else if isSubmitted s then ResultsScreen
  else QuizScreen.

(** The line of the confirmation dialog that is rendered when
    [answeredCount < topicQuestions.length]: the number
    [topicQuestions.length - answeredCount]. *)
Definition dialog_unanswered (s : Session) : option Z :=
  if (answeredCount s <? length (topicQuestions s))%nat
  then Some (Z.of_nat (length (topicQuestions s)) - Z.of_nat (answeredCount s))
  else None.

(** The three looks of a card of the detailed results:
    [!wasAnswered ? ... : isCorrect ? ... : ...] with
    [isCorrect = userAnswer?.isCorrect ?? false]. *)
Inductive CardStatus : Type := NotAnswered | AnsweredCorrect | AnsweredWrong.

Global Instance CardStatus_eq_dec : EqDecision CardStatus.
Proof. solve_decision. Defined.

Definition status_of (userAnswer : option QuizAnswer) : CardStatus :=
  match userAnswer with
  | None => NotAnswered
  | Some a => if isCorrect a then AnsweredCorrect else AnsweredWrong
  end.

(** [topicQuestions.map((question, index) => ...)] of the results: the
    status of the card of each question. *)
Definition result_cards (s : Session) : list CardStatus :=
  imap (fun index _ => status_of (getAnswerForQuestion s (Z.of_nat index)))
       (topicQuestions s).

(** [x.toString()] of a number, as a template literal prints it: for a
    safe integer its decimal numeral. *)
Definition number_toString (x : number) : string :=
  match x with
  | NaN => "NaN"
  | Num z => pretty z
  | Infinity negative => if negative then "-Infinity" else "Infinity"
  end.

(** [s.padStart(targetLength, pad)] for a one-character [pad]. *)
Definition padStart (targetLength : nat) (pad : ascii) (s : string) : string :=
  String.string_of_list_ascii (replicate (targetLength - String.length s) pad) +:+ s.

(** [Math.floor(x / d)] and [x % d] for a positive integer [d]; the
    remainder of JavaScript has the sign of [x]. On the safe integers the
    quotient of the doubles, floored, is the floor of the exact quotient. *)
Definition num_floor_div (x : number) (d : Z) : number :=
  match x with
  | NaN => NaN
  | Num z => Num (z / d)
  | Infinity negative => Infinity negative
  end.

Definition num_rem (x : number) (d : Z) : number :=
  match x with
  | NaN => NaN
  | Num z => Num (Z.rem z d)
  | Infinity _ => NaN
  end.

Definition formatTime (seconds : number) : string :=
  let mins := num_floor_div seconds 60 in
  let secs := num_rem seconds 60 in
  padStart 2 "0" (number_toString mins) +:+ ":" +:+ padStart 2 "0" (number_toString secs).

(** The backslash. *)
Definition backslash : ascii := "092"%char.

(** [text.replace(/\\n/g, '\n')]: every backslash that an [n] follows
    becomes, with that [n], one line feed; matches are taken from the left
    and do not overlap. *)
Fixpoint unescape_newlines (text : string) : string :=
  match text with
  | String c rest =>
      match rest with
      | String c' rest' =>
          if bool_decide (c = backslash) && bool_decide (c' = "n"%char)
          then String "010"%char (unescape_newlines rest')
          else String c (unescape_newlines rest)
      | EmptyString => text
      end
  | EmptyString => EmptyString
  end.

(** An event other than the two that the statements single out. *)
Definition is_Restart (e : Event) : bool :=
  match e with Restart => true | _ => false end.

Definition is_Loaded (e : Event) : bool :=
  match e with Loaded _ => true | _ => false end.

Definition is_warn (eff : Effect) : bool :=
  match eff with ConsoleWarn _ _ _ => true | _ => false end.

(** Whether a run of [loadQuestions] called [console.warn]. *)
Definition warned (c : Async unit) : bool := existsb is_warn (fst c).

(** The time-up flag is only set on a submitted session without time
    left. *)
Definition timer_consistent (s : Session) : Prop :=
  isTimeUp s = true -> isSubmitted s = true /\ timeLeft s = Num 0.

(** The remaining time lies between 0 and the budget [30 * count]. *)
Definition within_budget (count : Z) (s : Session) : Prop :=
  exists t, timeLeft s = Num t /\ 0 <= t <= 30 * count.

(** Every recorded answer points at a question of the session and carries
    the correctness of its option against that question, and no two
    answers share an index. *)
Definition answers_consistent (s : Session) : Prop :=
  NoDup (questionIndex <$> answers s) /\
  forall a, a ∈ answers s ->
    exists q, array_get (topicQuestions s) (questionIndex a) = Some q /\
      isCorrect a = String.eqb (selectedAnswer a) (answer q).

(** A decimal digit as a character. *)
Definition digit_char (z : Z) : ascii := pretty_N_char (Z.to_N z).

(** ** Vocabulary for the count parameter *)

(** The white space of the language, each character as the bytes of its
    UTF-8 encoding. *)
Definition white_space_bytes : list (list nat) :=
  [[9]; [10]; [11]; [12]; [13]; [32]; [194; 160]; [225; 154; 128];
   [226; 128; 128]; [226; 128; 129]; [226; 128; 130]; [226; 128; 131];
   [226; 128; 132]; [226; 128; 133]; [226; 128; 134]; [226; 128; 135];
   [226; 128; 136]; [226; 128; 137]; [226; 128; 138]; [226; 128; 168];
   [226; 128; 169]; [226; 128; 175]; [226; 129; 159]; [227; 128; 128];
   [239; 187; 191]]%nat.

Definition white_space : list string :=
  (fun bytes => String.string_of_list_ascii (ascii_of_nat <$> bytes))
    <$> white_space_bytes.

Definition concat_strings (parts : list string) : string :=
  fold_right String.append "" parts.

(** The numeral that a list of decimal digits writes, and its value. *)
Definition digits_string (ds : list Z) : string :=
  fold_right (fun d rest => String (digit_char d) rest) "" ds.

Definition digits_value (ds : list Z) : Z :=
  fold_left (fun acc d => 10 * acc + d) ds 0.

Definition is_digit (d : Z) : Prop := 0 <= d <= 9.

Definition starts_with_digit (s : string) : bool :=
  match s with
  | String c _ => bool_decide (is_Some (digit_value c))
  | EmptyString => false
  end.

(** The signs that a numeral can carry: none, plus or minus. *)
Definition signs : list string := [""; "+"; "-"].

Definition signed (sign : string) (v : Z) : Z :=
  if decide (sign = "-") then - v else v.

(** A string starts with an integer: white space, a sign and decimal
    digits, of which only the digits are required, and then anything. *)
Definition starts_with_integer (s : string) : Prop :=
  exists ws sign ds rest,
    Forall (fun w => w ∈ white_space) ws /\ sign ∈ signs /\
    ds ≠ [] /\ Forall is_digit ds /\
    s = concat_strings ws +:+ sign +:+ digits_string ds +:+ rest.

(** Whether a text holds a backslash that an [n] follows. *)
Fixpoint has_escape (text : string) : bool :=
  match text with
  | String c rest =>
      match rest with
      | String c' _ =>
          (bool_decide (c = backslash) && bool_decide (c' = "n"%char)) || has_escape rest
      | EmptyString => false
      end
  | EmptyString => false
  end.

(** ** Topic titles ([getTopicTitle]) *)

(** The own properties of the object literal [topicTitles]. *)
Definition topicTitles : list (string * string) :=
  [
   ("anayasa", "Türkiye Cumhuriyeti Anayasası");
   ("ataturk", "Atatürk İlkeleri ve İnkılap Tarihi");
   ("turkce", "Türkçe ve Dil Bilgisi");
   ("5902", "5902 Sayılı Afet ve Acil Durum Yönetimi Kanunu");
   ("7269", "7269 Sayılı Kanun");
   ("4123", "4123 Sayılı Kanun");
   ("7126", "7126 Sayılı Sivil Savunma Kanunu");
   ("4", "4 Sayılı Cumhurbaşkanlığı Kararnamesi");
   ("afet-yonetim-merkezleri", "Afet ve Acil Durum Yönetim Merkezleri Yönetmeliği");
   ("afet-mudahale-hizmetleri", "Afet ve Acil Durum Müdahale Hizmetleri Yönetmeliği");
   ("afet-harcamalari", "Afet ve Acil Durum Harcamaları Yönetmeliği");
   ("afetlerin-genel-hayata-etkililigi", "Afetlerin Genel Hayata Etkililiğine İlişkin Yönetmelik");
   ("buyuksehir-belediyeleri-harcamalar", "Büyükşehir Belediyeleri Harcama Yönetmeliği");
   ("binalarin-yangindan-korunmasi", "Binaların Yangından Korunması Hakkında Yönetmelik");
   ("afad-personeli-gorevde-yukselme", "AFAD Personeli Görevde Yükselme Yönetmeliği");
   ("657", "657 Sayılı Devlet Memurları Kanunu");
   ("4982", "4982 Sayılı Bilgi Edinme Hakkı Kanunu");
   ("3071", "3071 Sayılı Dilekçe Hakkının Kullanılmasına Dair Kanun");
   ("5018", "5018 Sayılı Kamu Mali Yönetimi ve Kontrol Kanunu");
   ("6245", "6245 Sayılı Harcırah Kanunu");
   ("3628", "3628 Sayılı Mal Bildiriminde Bulunulması Kanunu");
   ("4483", "4483 Sayılı Memurların Yargılanması Hakkında Kanun");
   ("2577", "2577 Sayılı İdari Yargılama Usulü Kanunu");
   ("6331", "6331 Sayılı İş Sağlığı ve Güvenliği Kanunu");
   ("5442", "5442 Sayılı İl İdaresi Kanunu");
   ("devlet-memurlari-disiplin", "Devlet Memurları Disiplin Yönetmeliği");
   ("resmi-yazismalar", "Resmî Yazışmalarda Uygulanacak Usul ve Esaslar");
   ("devlet-memurlari-sikayet", "Devlet Memurlarının Şikayet ve Müracaatları Yönetmeliği");
   ("kamu-gorevlileri-etik", "Kamu Görevlileri Etik Davranış İlkeleri Yönetmeliği");
   ("devlet-memurlari-hastalik-raporlari", "Devlet Memurları Hastalık Raporları Yönetmeliği")
  ].

(** The property names that every object inherits from
    [Object.prototype]; their values are functions or objects, never
    strings. *)
Definition Object_prototype_keys : list string :=
  ["constructor"; "hasOwnProperty"; "isPrototypeOf"; "propertyIsEnumerable";
   "toLocaleString"; "toString"; "valueOf"; "__proto__";
   "__defineGetter__"; "__defineSetter__"; "__lookupGetter__"; "__lookupSetter__"].

Fixpoint own_property (table : list (string * string)) (key : string) : option string :=
  match table with
  | [] => None
  | (k, v) :: rest => if decide (k = key) then Some v else own_property rest key
  end.

(** What [getTopicTitle] returns: a string, or, for a slug that names an
    inherited property, the value of that property, which is truthy and is
    no string. *)
Inductive TitleValue : Type :=
  | Title (title : string)
  | InheritedValue (name : string).

(** [topicTitles[slug] || 'Quiz'] *)
Definition getTopicTitle (slug : string) : TitleValue :=
  match own_property topicTitles slug with
  | Some title => if decide (title = "") then Title "Quiz" else Title title
  | None =>
      if decide (slug ∈ Object_prototype_keys) then InheritedValue slug
      else Title "Quiz"
  end.

(** * Properties *)

(** ** The shuffle *)

Section ShuffleFacts.
Context {T : Type}.
Variable rng : RandomSource.

(** The loop swaps inside the array: with [j <= i < length], [swap] is the
    exchange of the two cells. *)
Lemma swap_inside (shuffled : list T) (i j : nat) :
  (i < length shuffled)%nat -> (j <= i)%nat ->
  exists vi vj, shuffled !! i = Some vi /\ shuffled !! j = Some vj /\
    swap shuffled i j = <[j:=vi]> (<[i:=vj]> shuffled).
Proof.
  intros Hi Hj.
  destruct (lookup_lt_is_Some_2 shuffled i Hi) as [vi Hvi].
  destruct (lookup_lt_is_Some_2 shuffled j ltac:(lia)) as [vj Hvj].
  exists vi, vj. unfold swap. rewrite Hvi, Hvj. auto.
Qed.

Lemma swap_Permutation (shuffled : list T) (i j : nat) :
  swap shuffled i j ≡ₚ shuffled.
Proof.
  unfold swap.
  destruct (shuffled !! i) as [vi|] eqn:Hi; [|reflexivity].
  destruct (shuffled !! j) as [vj|] eqn:Hj; [|reflexivity].
  by apply Permutation_insert_swap.
Qed.

Lemma swap_length (shuffled : list T) (i j : nat) :
  length (swap shuffled i j) = length shuffled.
Proof. by rewrite (Permutation_length (swap_Permutation shuffled i j)). Qed.

Lemma shuffle_loop_Permutation (i : nat) (shuffled : list T) :
  shuffle_loop rng i shuffled ≡ₚ shuffled.
Proof.
  revert shuffled. induction i as [|i IH]; intros shuffled; simpl; [done|].
  rewrite IH. apply swap_Permutation.
Qed.

(** Every draw of the loop started by [secureShuffleArray] falls inside
    the array, so the loop only runs the exchange of [swap_inside]. *)
Lemma shuffle_loop_step (i : nat) (shuffled : list T) :
  (S i < length shuffled)%nat ->
  let j := getRandomInt rng (S i + 1) in
  exists vi vj, shuffled !! S i = Some vi /\ shuffled !! j = Some vj /\
    shuffle_loop rng (S i) shuffled =
    shuffle_loop rng i (<[j:=vi]> (<[S i:=vj]> shuffled)).
Proof.
  intros Hi j.
  pose proof (getRandomInt_range rng (S i + 1) ltac:(lia)) as Hj. fold j in Hj.
  destruct (swap_inside shuffled (S i) j Hi ltac:(lia)) as (vi & vj & Hvi & Hvj & Hswap).
  exists vi, vj. repeat split; try done.
  change (shuffle_loop rng (S i) shuffled)
    with (shuffle_loop rng i (swap shuffled (S i) j)).
  by rewrite Hswap.
Qed.

Lemma secureShuffleArray_perm (array : list T) :
  secureShuffleArray rng array ≡ₚ array.
Proof. unfold secureShuffleArray. apply shuffle_loop_Permutation. Qed.
End ShuffleFacts.

(** C6. The shuffle is a permutation: for every input array, the empty
    and the one-element arrays included, and every randomness source
    (whose draws are below the bound asked for, as [RandomSource]
    requires), the output of [secureShuffleArray] has exactly the elements
    of the input, with their multiplicities, and the same length. *)
Theorem secureShuffleArray_Permutation {T : Type} (rng : RandomSource) (array : list T) :
  secureShuffleArray rng array ≡ₚ array /\
  length (secureShuffleArray rng array) = length array /\
  secureShuffleArray rng (@nil T) = [] /\
  (forall x : T, secureShuffleArray rng [x] = [x]).
Proof.
  split; [apply secureShuffleArray_perm|].
  split; [apply Permutation_length, secureShuffleArray_perm|].
  split; reflexivity.
Qed.

(** ** Generated ids *)

Lemma split_at_char (c : ascii) (a a' r r' : string) :
  has_char c a = false -> has_char c a' = false ->
  a +:+ String c r = a' +:+ String c r' -> a = a' /\ r = r'.
Proof.
  revert a'. induction a as [|x a IH]; intros [|x' a'] Ha Ha' Heq; simpl in *.
  - by injection Heq as ->.
  - injection Heq as <- _. rewrite bool_decide_eq_true_2 in Ha' by done. done.
  - injection Heq as -> _. rewrite bool_decide_eq_true_2 in Ha by done. done.
  - injection Heq as -> Heq.
    apply orb_false_iff in Ha as [_ Ha]. apply orb_false_iff in Ha' as [_ Ha'].
    destruct (IH a' Ha Ha' Heq) as [-> ->]. done.
Qed.

Lemma has_char_pretty_N_go (x : N) (s : string) :
  has_char "_" s = false -> has_char "_" (pretty_N_go x s) = false.
Proof.
  revert s. induction (N.lt_wf_0 x) as [x _ IH]; intros s Hs.
  destruct (decide (x = 0%N)) as [->|Hx]; [by rewrite pretty_N_go_0|].
  rewrite pretty_N_go_step by lia. apply IH.
  - apply N.div_lt; lia.
  - simpl. rewrite Hs. unfold pretty_N_char. by repeat case_match.
Qed.

Lemma has_char_pretty_N (x : N) : has_char "_" (pretty x) = false.
Proof.
  unfold pretty, pretty_N. case_decide; [done|]. by apply has_char_pretty_N_go.
Qed.

Lemma has_char_pretty_nat (n : nat) : has_char "_" (pretty n) = false.
Proof. apply has_char_pretty_N. Qed.

Lemma has_char_pretty_Z (z : Z) : has_char "_" (pretty z) = false.
Proof.
  destruct z as [|p|p]; [done| |].
  - apply (has_char_pretty_N (Npos p)).
  - change (pretty (Zneg p)) with ("-" +:+ pretty (Npos p)). simpl.
    apply (has_char_pretty_N (Npos p)).
Qed.

(** The id generated at an index tells the index: two callbacks of one
    call never generate the same id. *)
Lemma generated_id_inj (amb : Ambient) (i j : nat) :
  generated_id amb i = generated_id amb j -> i = j.
Proof.
  unfold generated_id. intros Heq. simpl in Heq. injection Heq as Heq.
  apply split_at_char in Heq as [_ Heq]; [|apply has_char_pretty_Z..].
  apply split_at_char in Heq as [Heq _]; [|apply has_char_pretty_nat..].
  by apply (inj pretty) in Heq.
Qed.

Lemma generated_id_nonempty (amb : Ambient) (i : nat) : generated_id amb i ≠ "".
Proof. done. Qed.

(** ** Deduplication *)

Section DedupFacts.
Context `{JSString}.
Variable amb : Ambient.

Lemma questionKey_with_id (q : Question) (newId : string) :
  questionKey (with_id q newId) = questionKey q.
Proof. reflexivity. Qed.

Lemma questionKey_backfill (iq : nat * Question) :
  questionKey (backfill amb iq) = questionKey iq.2.
Proof. reflexivity. Qed.

Lemma first_occurrences_from_nil (qs : list Question) :
  first_occurrences_from [] qs = first_occurrences qs.
Proof. reflexivity. Qed.

Lemma first_occurrences_from_cons (pre : list Question) (q : Question)
    (rest : list Question) :
  first_occurrences_from pre (q :: rest) =
  (if decide (questionKey q ∈ questionKey <$> pre) then [] else [(length pre, q)])
    ++ first_occurrences_from (pre ++ [q]) rest.
Proof.
  unfold first_occurrences_from. rewrite imap_cons, filter_cons.
  assert (Htail :
    filter (first_seen (pre ++ q :: rest))
      (imap ((fun n => pair (length pre + n)%nat) ∘ S) rest) =
    filter (first_seen ((pre ++ [q]) ++ rest))
      (imap (fun n => pair (length (pre ++ [q]) + n)%nat) rest)).
  { rewrite <- (app_assoc pre [q] rest). simpl. f_equal.
    apply imap_ext. intros n x _. simpl. rewrite length_app. simpl.
    f_equal. lia. }
  rewrite Htail.
  assert (Hhead : first_seen (pre ++ q :: rest) ((length pre + 0)%nat, q)
                  <-> questionKey q ∉ questionKey <$> pre).
  { unfold first_seen. simpl. rewrite Nat.add_0_r, take_app_length. done. }
  rewrite Nat.add_0_r in *.
  destruct (decide (first_seen (pre ++ q :: rest) (length pre, q))) as [Hf|Hf];
    destruct (decide (questionKey q ∈ questionKey <$> pre)) as [Hin|Hin];
    try done.
  - by apply Hhead in Hf.
  - by apply Hhead in Hin.
Qed.

(** The loop with its set [seen] computes the first occurrences. *)
Lemma forEach_question_spec (qs pre : list Question) (seen : gset string)
    (acc : list Question) :
  (forall k, k ∈ seen <-> k ∈ questionKey <$> pre) ->
  forEach_question amb qs (length pre) seen acc =
  acc ++ (backfill amb <$> first_occurrences_from pre qs).
Proof.
  revert pre seen acc. induction qs as [|q rest IH]; intros pre seen acc Hseen.
  - simpl. by rewrite app_nil_r.
  - rewrite first_occurrences_from_cons. simpl.
    assert (Hlen : S (length pre) = length (pre ++ [q])).
    { rewrite length_app. simpl. lia. }
    rewrite Hlen.
    destruct (decide (questionKey q ∈ seen)) as [Hin|Hin];
      destruct (decide (questionKey q ∈ questionKey <$> pre)) as [Hin'|Hin'];
      try (by apply Hseen in Hin); try (by apply Hseen in Hin').
    + apply IH. intros k. rewrite fmap_app, elem_of_app, <- Hseen. simpl.
      rewrite list_elem_of_singleton. split; [auto|]. intros [?| ->]; done.
    + rewrite (IH (pre ++ [q]) ({[questionKey q]} ∪ seen)).
      * simpl. by rewrite <- app_assoc.
      * intros k. rewrite fmap_app, elem_of_app, <- Hseen. simpl.
        rewrite list_elem_of_singleton, elem_of_union, elem_of_singleton.
        tauto.
Qed.

Lemma removeDuplicateQuestions_spec (qs : list Question) :
  removeDuplicateQuestions amb qs = backfill amb <$> first_occurrences qs.
Proof.
  unfold removeDuplicateQuestions.
  rewrite (forEach_question_spec qs [] ∅ []); [done|].
  intros k. simpl. rewrite elem_of_nil. by rewrite elem_of_empty.
Qed.

(** The keys of the first occurrences are pairwise distinct and new with
    respect to the prefix. *)
Lemma first_occurrences_from_keys (qs pre : list Question) :
  NoDup (key_at <$> first_occurrences_from pre qs) /\
  (forall k, k ∈ key_at <$> first_occurrences_from pre qs ->
             k ∉ questionKey <$> pre).
Proof.
  revert pre. induction qs as [|q rest IH]; intros pre.
  - split; [constructor|]. intros k Hk. by apply elem_of_nil in Hk.
  - rewrite first_occurrences_from_cons.
    destruct (IH (pre ++ [q])) as [IHnd IHnew].
    assert (Hpre : forall k,
      k ∈ key_at <$> first_occurrences_from (pre ++ [q]) rest ->
      (k ∉ questionKey <$> pre) /\ k ≠ questionKey q).
    { intros k Hk. apply IHnew in Hk. rewrite fmap_app, not_elem_of_app in Hk.
      destruct Hk as [Hk1 Hk2]. split; [done|]. intros ->. apply Hk2. simpl.
      apply list_elem_of_singleton. done. }
    destruct (decide (questionKey q ∈ questionKey <$> pre)) as [Hin|Hin]; simpl.
    + split; [done|]. intros k Hk. by apply Hpre in Hk as [? _].
    + split.
      * apply NoDup_cons. split; [|done]. intros Hk. by apply Hpre in Hk as [_ ?].
      * intros k [->|Hk]%elem_of_cons; [done|]. by apply Hpre in Hk as [? _].
Qed.

(** The indices of the first occurrences are those of the input, increasing. *)
Lemma first_occurrences_indices (qs : list Question) :
  (fst <$> first_occurrences qs) `sublist_of` seq 0 (length qs).
Proof.
  unfold first_occurrences.
  assert (Hseq : seq 0 (length qs) = fst <$> imap pair qs).
  { rewrite fmap_imap.
    rewrite (imap_ext _ (fun n _ => n) qs) by (intros; reflexivity).
    by rewrite (imap_seq_0 qs (fun n => n)), list_fmap_id. }
  rewrite Hseq. apply fmap_sublist, sublist_filter.
Qed.

Lemma first_occurrences_lookup (qs : list Question) (iq : nat * Question) :
  iq ∈ first_occurrences qs <->
  qs !! iq.1 = Some iq.2 /\ questionKey iq.2 ∉ questionKey <$> take iq.1 qs.
Proof.
  unfold first_occurrences. rewrite list_elem_of_filter, elem_of_lookup_imap.
  unfold first_seen. split.
  - intros [Hf (i & y & -> & Hy)]. simpl in *. done.
  - intros [Hl Hf]. split; [done|]. exists iq.1, iq.2. split; [|done].
    by destruct iq.
Qed.
End DedupFacts.

Section DedupIds.
Context `{JSString}.
Variable amb : Ambient.

Lemma id_backfill (iq : nat * Question) :
  id (backfill amb iq) = Some (or_else (id iq.2) (generated_id amb iq.1)).
Proof. reflexivity. Qed.

Lemma or_else_nonempty (a : option string) (b : string) : b ≠ "" -> or_else a b ≠ "".
Proof.
  intros Hb. unfold or_else. destruct a as [s|]; [|done]. by case_decide.
Qed.

Lemma or_else_lacking (q : Question) (b : string) : lacks_id q -> or_else (id q) b = b.
Proof. intros [Hq|Hq]; rewrite Hq; reflexivity. Qed.

Lemma or_else_supplied (q : Question) (b : string) :
  ¬ lacks_id q -> Some (or_else (id q) b) = id q.
Proof.
  unfold lacks_id, or_else. intros Hq. destruct (id q) as [s|]; [|tauto].
  case_decide; [subst; tauto|done].
Qed.

Lemma first_occurrences_NoDup (qs : list Question) : NoDup (first_occurrences qs).
Proof.
  apply (NoDup_fmap_1 fst).
  eapply sublist_NoDup; [apply NoDup_seq|apply first_occurrences_indices].
Qed.

(** Two first occurrences without an id of their own get different ids. *)
Lemma generated_ids_distinct (qs : list Question) (iq1 iq2 : nat * Question) :
  iq1 ∈ first_occurrences qs -> iq2 ∈ first_occurrences qs ->
  lacks_id iq1.2 -> lacks_id iq2.2 ->
  id (backfill amb iq1) = id (backfill amb iq2) -> iq1 = iq2.
Proof.
  intros [Hl1 _]%first_occurrences_lookup [Hl2 _]%first_occurrences_lookup L1 L2.
  rewrite !id_backfill, !or_else_lacking by done.
  intros Heq. assert (Hgen : generated_id amb iq1.1 = generated_id amb iq2.1)
    by congruence.
  apply generated_id_inj in Hgen.
  destruct iq1 as [i1 q1], iq2 as [i2 q2]. simpl in *. subst i2. congruence.
Qed.
End DedupIds.

(** C5 (amended). For every input list, [removeDuplicateQuestions] keeps
    the first question of each normalized key and nothing else: the output
    is not longer than the input, no two output questions share a key, and
    the output is the list of first occurrences in input order, each with
    its id filled in. Every output question carries a non-empty id: its own
    when it has a non-empty one, else the id generated for its index. The
    generated ids are pairwise distinct, so all ids of the output are
    distinct when no input question brings an id of its own. *)
Theorem removeDuplicateQuestions_first_occurrences `{JSString} (amb : Ambient)
    (qs : list Question) :
  let out := removeDuplicateQuestions amb qs in
  (length out <= length qs)%nat /\
  NoDup (questionKey <$> out) /\
  out = backfill amb <$> first_occurrences qs /\
  (forall iq, iq ∈ first_occurrences qs <->
     qs !! iq.1 = Some iq.2 /\ questionKey iq.2 ∉ questionKey <$> take iq.1 qs) /\
  (fst <$> first_occurrences qs) `sublist_of` seq 0 (length qs) /\
  (forall o, o ∈ out -> exists s, id o = Some s /\ s ≠ "") /\
  (forall iq, ¬ lacks_id iq.2 -> id (backfill amb iq) = id iq.2) /\
  (forall iq, lacks_id iq.2 -> id (backfill amb iq) = Some (generated_id amb iq.1)) /\
  (forall iq1 iq2, iq1 ∈ first_occurrences qs -> iq2 ∈ first_occurrences qs ->
     lacks_id iq1.2 -> lacks_id iq2.2 ->
     id (backfill amb iq1) = id (backfill amb iq2) -> iq1 = iq2) /\
  ((forall q, q ∈ qs -> lacks_id q) -> NoDup (id <$> out)).
Proof.
  intros out. unfold out. rewrite removeDuplicateQuestions_spec.
  split.
  { rewrite length_fmap. unfold first_occurrences.
    etrans; [apply length_filter|]. by rewrite length_imap. }
  split.
  { rewrite <- list_fmap_compose.
    destruct (first_occurrences_from_keys qs []) as [Hnd _].
    rewrite first_occurrences_from_nil in Hnd. exact Hnd. }
  split; [done|].
  split; [apply first_occurrences_lookup|].
  split; [apply first_occurrences_indices|].
  split.
  { intros o (iq & -> & _)%list_elem_of_fmap. rewrite id_backfill.
    eexists. split; [done|]. apply or_else_nonempty, generated_id_nonempty. }
  split.
  { intros iq Hiq. rewrite id_backfill. by apply or_else_supplied. }
  split.
  { intros iq Hiq. rewrite id_backfill. by rewrite or_else_lacking. }
  split; [apply generated_ids_distinct|].
  intros Hall. rewrite <- list_fmap_compose.
  apply NoDup_fmap_2_strong; [|apply first_occurrences_NoDup].
  intros iq1 iq2 H1 H2 Heq.
  assert (Hq : forall iq, iq ∈ first_occurrences qs -> lacks_id iq.2).
  { intros iq [Hl _]%first_occurrences_lookup. apply Hall.
    by apply list_elem_of_lookup_2 in Hl. }
  apply (generated_ids_distinct amb qs); auto.
Qed.

(** Witness of C5: three different questions without ids. *)
Lemma removeDuplicateQuestions_first_occurrences_witness :
  NoDup (id <$> @removeDuplicateQuestions ascii_strings fixed_ambient
                  [plain_1; plain_2; plain_3]).
Proof.
  apply (@removeDuplicateQuestions_first_occurrences ascii_strings fixed_ambient
           [plain_1; plain_2; plain_3]).
  intros q Hq. unfold lacks_id.
  apply elem_of_cons in Hq as [->|Hq]; [by left|].
  apply elem_of_cons in Hq as [->|Hq]; [by left|].
  apply elem_of_cons in Hq as [->|Hq]; [by right|].
  by apply elem_of_nil in Hq.
Defined.

(** C5 as stated fails: two different questions that carry the same id
    both survive with that id, so the ids of one call are not unique. *)
Lemma removeDuplicateQuestions_ids_not_unique :
  let out := @removeDuplicateQuestions ascii_strings fixed_ambient [twin_a; twin_b] in
  out = [twin_a; twin_b] /\ id twin_a = id twin_b /\ ¬ NoDup (id <$> out).
Proof.
  assert (Hout : @removeDuplicateQuestions ascii_strings fixed_ambient [twin_a; twin_b]
                 = [twin_a; twin_b]) by (vm_compute; reflexivity).
  simpl. rewrite Hout. split; [done|]. split; [done|].
  intros Hnd. simpl in Hnd. apply NoDup_cons in Hnd as [Hnotin _].
  apply Hnotin. by left.
Qed.

(** ** Loading *)

Section LoadFacts.
Context `{JSString}.
Variable amb : Ambient.
Variable rng : RandomSource.
Variable store : Store.

(** A load that succeeds performs both state updates, in this order. *)
Lemma loadQuestions_success (slug : string) (questionCount : number)
    (response : Response) (q : list Question) :
  store (url_of slug) = Some response -> ok response = true ->
  json response = Some q ->
  exists logs,
    loadQuestions amb rng store slug questionCount =
    (FetchCall (url_of slug) :: logs ++
       [SetTopicQuestions (finalQuestions_of amb rng questionCount q);
        SetTopicQuestions (quizQuestions_of amb rng questionCount q)],
     inr tt) /\
    Forall (fun eff => is_console eff = true) logs.
Proof.
  intros Hstore Hok Hjson.
  unfold loadQuestions, fetch, response_json.
  rewrite Hstore. simpl. rewrite Hok, Hjson. simpl.
  destruct (num_gt questionCount
              (array_length (uniqueQuestions_of amb q))) eqn:Hgt; simpl.
  - eexists [_; _; _; _; _; _; _]. split; [reflexivity|].
    repeat constructor.
  - eexists [_; _; _; _; _; _]. split; [reflexivity|].
    repeat constructor.
Qed.

(** A load whose fetch fails logs the error and sets the empty list. *)
Lemma loadQuestions_failure (slug : string) (questionCount : number) :
  fetch_fails store slug ->
  exists error,
    loadQuestions amb rng store slug questionCount =
    ([FetchCall (url_of slug); ConsoleError error; SetTopicQuestions []], inr tt).
Proof.
  unfold fetch_fails, loadQuestions, fetch, response_json.
  destruct (store (url_of slug)) as [response|]; simpl.
  - destruct (ok response) eqn:Hok; simpl.
    + intros [?|Hjson]; [done|]. rewrite Hjson. simpl. by eexists.
    + intros _. by eexists.
  - intros _. by eexists.
Qed.

Lemma settle_logs (s : Session) (logs : list Effect) :
  Forall (fun eff => is_console eff = true) logs ->
  fold_left apply_effect logs s = s.
Proof.
  induction 1 as [|eff logs Heff _ IH]; simpl; [done|]. by destruct eff.
Qed.
End LoadFacts.

(** C9. A load whose fetch fails (the promise rejects, the response is not
    a success, or its body cannot be read) recovers by setting the
    question list of the session to the empty list and touching nothing
    else; and every load, failed or not, settles without an error (the
    [catch] handler swallows it) after exactly one call of [fetch]. *)
Theorem loadQuestions_fetch_failure `{JSString} (amb : Ambient) (rng : RandomSource)
    (store : Store) (slug : string) (questionCount : number) (s : Session) :
  let c := loadQuestions amb rng store slug questionCount in
  snd c = inr tt /\
  fetch_calls c = 1%nat /\
  (fetch_fails store slug ->
     settle s c = setTopicQuestions s [] /\ topicQuestions (settle s c) = []).
Proof.
  intros c. unfold c.
  destruct (store (url_of slug)) as [response|] eqn:Hstore.
  - destruct (ok response) eqn:Hok; [destruct (json response) as [q|] eqn:Hjson|].
    + destruct (loadQuestions_success amb rng store slug questionCount response q)
        as (logs & -> & Hlogs); try done.
      split; [done|]. split.
      * unfold fetch_calls. simpl. rewrite List.filter_app. simpl.
        rewrite app_nil_r.
        assert (Hnone : List.filter is_fetch_call logs = []).
        { clear -Hlogs. induction Hlogs as [|eff logs Heff _ IH]; [done|].
          simpl. rewrite IH. by destruct eff. }
        by rewrite Hnone.
      * unfold fetch_fails. rewrite Hstore, Hok, Hjson. intros [?|?]; done.
    + destruct (loadQuestions_failure amb rng store slug questionCount)
        as (error & ->).
      { unfold fetch_fails. rewrite Hstore. by right. }
      split; [done|]. split; [done|]. intros _. done.
    + destruct (loadQuestions_failure amb rng store slug questionCount)
        as (error & ->).
      { unfold fetch_fails. rewrite Hstore. by left. }
      split; [done|]. split; [done|]. intros _. done.
  - destruct (loadQuestions_failure amb rng store slug questionCount)
      as (error & ->).
    { unfold fetch_fails. by rewrite Hstore. }
    split; [done|]. split; [done|]. intros _. done.
Qed.

(** Witness of C9: a store that answers 404 to every request. *)
Lemma loadQuestions_fetch_failure_witness :
  let store : Store := fun _ => Some {| ok := false; status := 404; json := None |} in
  let c := @loadQuestions ascii_strings fixed_ambient zero_draws store "anayasa" (Num 20) in
  fetch_fails store "anayasa" /\
  topicQuestions (settle (initialSession (Num 20)) c) = [].
Proof.
  intros store c.
  assert (Hfails : fetch_fails store "anayasa") by (by left).
  split; [exact Hfails|].
  apply (@loadQuestions_fetch_failure ascii_strings fixed_ambient zero_draws store
           "anayasa" (Num 20) (initialSession (Num 20))).
  exact Hfails.
Defined.

(** ** The final uniqueness pass *)

Section FindIndex.
Context {A : Type}.
Variable p : A -> bool.

Lemma findIndex_from_skip (pre l : list A) (k : nat) :
  Forall (fun y => p y = false) pre ->
  findIndex_from p (pre ++ l) k = findIndex_from p l (k + length pre).
Proof.
  intros Hpre. revert k. induction Hpre as [|y pre Hy _ IH]; intros k; simpl.
  - by rewrite Nat.add_0_r.
  - rewrite Hy, IH. f_equal. lia.
Qed.

Lemma findIndex_from_hit (pre l : list A) (k : nat) :
  Exists (fun y => p y = true) pre ->
  Z.of_nat k <= findIndex_from p (pre ++ l) k < Z.of_nat (k + length pre).
Proof.
  intros Hpre. revert k. induction pre as [|y pre IH]; intros k.
  - by apply Exists_nil in Hpre.
  - simpl. destruct (p y) eqn:Hy; [lia|].
    apply Exists_cons in Hpre as [Hpre|Hpre]; [congruence|].
    specialize (IH Hpre (S k)). lia.
Qed.
End FindIndex.

Lemma same_id_true (a b : Question) : same_id a b = true <-> id a = id b.
Proof. unfold same_id. apply bool_decide_eq_true. Qed.

Lemma same_id_false (a b : Question) : same_id a b = false <-> id a ≠ id b.
Proof. unfold same_id. apply bool_decide_eq_false. Qed.

(** The filter of the final pass keeps an element exactly when no earlier
    element of the array has its id. *)
Lemma final_pass_from (arr pre : list Question) :
  let self := pre ++ arr in
  let keep := fun (question0 : Question) (index : nat) =>
    Z.of_nat index =? findIndex (fun q0 => same_id q0 question0) self in
  let out := filter_from keep arr (length pre) in
  NoDup (id <$> out) /\
  (forall o, o ∈ out -> o ∈ arr /\ id o ∉ id <$> pre).
Proof.
  revert pre. induction arr as [|x rest IH]; intros pre self keep out.
  - split; [constructor|]. intros o Ho. by apply elem_of_nil in Ho.
  - specialize (IH (pre ++ [x])).
    assert (Hself : (pre ++ [x]) ++ rest = self)
      by (unfold self; by rewrite <- app_assoc).
    assert (Hlen : length (pre ++ [x]) = S (length pre))
      by (rewrite length_app; simpl; lia).
    rewrite Hself, Hlen in IH. simpl in IH. destruct IH as [IHnd IHin].
    assert (Htail : forall o, o ∈ filter_from keep rest (S (length pre)) ->
              o ∈ x :: rest /\ (id o ∉ id <$> pre) /\ id o ≠ id x).
    { intros o Ho. apply IHin in Ho as [Ho Hid].
      rewrite fmap_app, not_elem_of_app in Hid. destruct Hid as [Hid1 Hid2].
      split; [by right|]. split; [done|]. intros Heq. apply Hid2.
      simpl. rewrite Heq. by left. }
    unfold out. simpl.
    destruct (decide (id x ∈ id <$> pre)) as [Hin|Hin].
    + assert (Hhit : Exists (fun y => same_id y x = true) pre).
      { apply list_elem_of_fmap in Hin as (y & Hy & Hypre).
        apply Exists_exists. exists y. split; [done|]. by apply same_id_true. }
      pose proof (findIndex_from_hit (fun q0 => same_id q0 x) pre (x :: rest) 0 Hhit)
        as Hbound.
      assert (Hkeep : keep x (length pre) = false).
      { unfold keep, findIndex, self. apply Z.eqb_neq. lia. }
      rewrite Hkeep. split; [done|]. intros o Ho.
      apply Htail in Ho as (? & ? & ?). done.
    + assert (Hskip : Forall (fun y => same_id y x = false) pre).
      { apply Forall_forall. intros y Hy. apply same_id_false. intros Heq.
        apply Hin. rewrite <- Heq. by apply list_elem_of_fmap_2. }
      assert (Hkeep : keep x (length pre) = true).
      { unfold keep, findIndex, self.
        rewrite (findIndex_from_skip _ pre (x :: rest) 0 Hskip). simpl.
        assert (Hxx : same_id x x = true) by (by apply same_id_true).
        rewrite Hxx. apply Z.eqb_eq. lia. }
      rewrite Hkeep. split.
      * simpl. apply NoDup_cons. split; [|done].
        intros (o & Hoid & Ho)%list_elem_of_fmap.
        apply Htail in Ho as (_ & _ & Hne). congruence.
      * intros o [->|Ho]%elem_of_cons; [split; [by left|done]|].
        apply Htail in Ho as (? & ? & ?). done.
Qed.

(** The list [finalQuestions] has no two questions with the same id, and
    all its questions are among the sampled ones. *)
Lemma finalQuestions_unique_ids `{JSString} (amb : Ambient) (rng : RandomSource)
    (questionCount : number) (q : list Question) :
  NoDup (id <$> finalQuestions_of amb rng questionCount q) /\
  (forall o, o ∈ finalQuestions_of amb rng questionCount q ->
             o ∈ quizQuestions_of amb rng questionCount q).
Proof.
  pose proof (final_pass_from (quizQuestions_of amb rng questionCount q) [])
    as [Hnd Hin].
  split; [exact Hnd|]. intros o Ho. by apply Hin in Ho as [? _].
Qed.

(** The second call of [setTopicQuestions] wins: after a load that
    succeeds, the session holds [quizQuestions], not [finalQuestions]. *)
Lemma mounted_success `{JSString} (amb : Ambient) (rng : RandomSource)
    (store : Store) (slug : string) (searchParams : list (string * string))
    (response : Response) (q : list Question) :
  store (url_of slug) = Some response -> ok response = true ->
  json response = Some q ->
  let questionCount := questionCount_of searchParams in
  mounted amb rng store slug searchParams =
  setTopicQuestions (initialSession questionCount)
    (quizQuestions_of amb rng questionCount q).
Proof.
  intros Hstore Hok Hjson questionCount. unfold mounted, settle.
  fold questionCount.
  destruct (loadQuestions_success amb rng store slug questionCount response q)
    as (logs & -> & Hlogs); try done.
  simpl. rewrite fold_left_app, (settle_logs _ logs Hlogs). reflexivity.
Qed.

(** ** Sampling *)

Lemma shuffledQuestions_Permutation `{JSString} (amb : Ambient) (rng : RandomSource)
    (q : list Question) :
  shuffledQuestions_of amb rng q ≡ₚ uniqueQuestions_of amb q.
Proof. apply secureShuffleArray_perm. Qed.

Lemma slice0_nonneg {A} (arr : list A) (k : Z) :
  0 <= k -> slice0 arr (Num k) = take (Z.to_nat k) arr.
Proof.
  intros Hk. unfold slice0.
  destruct (k <? 0) eqn:Hneg; [lia|].
  destruct (Z.min_spec k (Z.of_nat (length arr))) as [[Hlt ->]|[Hge ->]]; [done|].
  rewrite Nat2Z.id. rewrite !take_ge by lia. done.
Qed.

(** A negative end drops that many elements from the end of the array. *)
Lemma slice0_negative {A} (arr : list A) (k : Z) :
  k < 0 -> slice0 arr (Num k) = take (length arr - Z.to_nat (- k)) arr.
Proof.
  intros Hk. unfold slice0.
  destruct (k <? 0) eqn:Hneg; [|lia]. f_equal. lia.
Qed.

(** With a count that is not negative the sample is a prefix of the
    shuffled sequence. *)
Lemma quizQuestions_take `{JSString} (amb : Ambient) (rng : RandomSource)
    (requestedCount : Z) (q : list Question) :
  0 <= requestedCount ->
  quizQuestions_of amb rng (Num requestedCount) q =
  take (Z.to_nat (Z.min requestedCount
                    (Z.of_nat (length (uniqueQuestions_of amb q)))))
       (shuffledQuestions_of amb rng q).
Proof.
  intros Hcount.
  pose proof (Permutation_length (shuffledQuestions_Permutation amb rng q)) as Hlen.
  unfold quizQuestions_of, availableQuestions_of, array_length. simpl.
  rewrite Hlen. apply slice0_nonneg. lia.
Qed.

(** C7 (amended). For a requested count that is not negative, sampling
    takes exactly min(requestedCount, number of unique questions)
    questions from the front of the shuffled sequence, never more; and
    when the requested count reaches or exceeds the number of unique
    questions, all of them are returned. *)
Theorem quizQuestions_sample `{JSString} (amb : Ambient) (rng : RandomSource)
    (requestedCount : Z) (q : list Question) :
  0 <= requestedCount ->
  let unique := uniqueQuestions_of amb q in
  let shuffled := shuffledQuestions_of amb rng q in
  let quiz := quizQuestions_of amb rng (Num requestedCount) q in
  let uniqueCount := Z.of_nat (length unique) in
  quiz = take (Z.to_nat (Z.min requestedCount uniqueCount)) shuffled /\
  Z.of_nat (length quiz) = Z.min requestedCount uniqueCount /\
  (uniqueCount <= requestedCount -> quiz = shuffled /\ quiz ≡ₚ unique).
Proof.
  intros Hcount unique shuffled quiz uniqueCount.
  assert (Hlen : length shuffled = length unique)
    by apply Permutation_length, shuffledQuestions_Permutation.
  assert (Hquiz : quiz = take (Z.to_nat (Z.min requestedCount uniqueCount)) shuffled)
    by (by apply quizQuestions_take).
  split; [exact Hquiz|]. split.
  - rewrite Hquiz, length_take, Hlen. unfold uniqueCount. lia.
  - intros Hall. assert (Heq : quiz = shuffled).
    { rewrite Hquiz. apply take_ge. rewrite Hlen. unfold uniqueCount in *. lia. }
    split; [exact Heq|]. rewrite Heq. apply shuffledQuestions_Permutation.
Qed.

(** Witness of C7: two questions requested out of three. *)
Lemma quizQuestions_sample_witness :
  0 <= 2 /\
  Z.of_nat (length (@quizQuestions_of ascii_strings fixed_ambient zero_draws (Num 2)
                      [plain_1; plain_2; plain_3])) =
  Z.min 2 (Z.of_nat (length (@uniqueQuestions_of ascii_strings fixed_ambient
                               [plain_1; plain_2; plain_3]))).
Proof.
  split; [lia|].
  apply (@quizQuestions_sample ascii_strings fixed_ambient zero_draws 2
           [plain_1; plain_2; plain_3]).
  lia.
Defined.

(** C7 as stated fails for a negative count: [?count=-1] is read as -1,
    [Math.min] keeps it, and [slice(0, -1)] returns all but the last of the
    three unique questions, which is more than min(-1, 3). *)
Lemma quizQuestions_negative_count :
  let q := [plain_1; plain_2; plain_3] in
  let requestedCount := questionCount_of [("count", "-1")] in
  let quiz := @quizQuestions_of ascii_strings fixed_ambient zero_draws requestedCount q in
  requestedCount = Num (-1) /\
  length (@uniqueQuestions_of ascii_strings fixed_ambient q) = 3%nat /\
  length quiz = 2%nat /\
  ¬ (Z.of_nat (length quiz) <= Z.min (-1) 3).
Proof.
  vm_compute. repeat split; try reflexivity. intros Hle. by apply Hle.
Qed.

(** ** The list installed into the session *)

(** C1 (the code departs from the claim). The page computes
    [finalQuestions], which has no two questions with the same id
    ([finalQuestions_unique_ids]), and then overwrites it with
    [quizQuestions]. For a file with two different questions that carry
    the same id, whatever the shuffle draws, the session is initialized
    with both of them. *)
Theorem mounted_keeps_duplicate_ids (rng : RandomSource) :
  let raw := [twin_a; twin_b] in
  let s := @mounted ascii_strings fixed_ambient rng (store_of "anayasa" raw)
             "anayasa" [] in
  topicQuestions s = @quizQuestions_of ascii_strings fixed_ambient rng (Num 20) raw /\
  topicQuestions s ≡ₚ [twin_a; twin_b] /\
  ¬ NoDup (id <$> topicQuestions s) /\
  NoDup (id <$> @finalQuestions_of ascii_strings fixed_ambient rng (Num 20) raw).
Proof.
  intros raw s.
  assert (Hs : s = setTopicQuestions (initialSession (Num 20))
                     (@quizQuestions_of ascii_strings fixed_ambient rng (Num 20) raw)).
  { unfold s.
    apply (@mounted_success ascii_strings fixed_ambient rng (store_of "anayasa" raw)
             "anayasa" [] {| ok := true; status := 200; json := Some raw |} raw);
      reflexivity. }
  assert (Hperm : topicQuestions s ≡ₚ [twin_a; twin_b]).
  { rewrite Hs. simpl.
    rewrite (@quizQuestions_take ascii_strings fixed_ambient rng 20 raw) by lia.
    assert (Hunique : @uniqueQuestions_of ascii_strings fixed_ambient raw
                      = [twin_a; twin_b]) by (vm_compute; reflexivity).
    rewrite take_ge.
    - rewrite shuffledQuestions_Permutation. by rewrite Hunique.
    - rewrite (Permutation_length
                 (@shuffledQuestions_Permutation ascii_strings fixed_ambient rng raw)).
      rewrite Hunique. simpl. lia. }
  split; [by rewrite Hs|]. split; [exact Hperm|]. split.
  - rewrite Hperm. simpl. intros [Hnotin _]%NoDup_cons. apply Hnotin. by left.
  - apply finalQuestions_unique_ids.
Qed.

(** The same run with every draw equal to 0, evaluated. *)
Lemma mounted_keeps_duplicate_ids_run :
  topicQuestions (@mounted ascii_strings fixed_ambient zero_draws
                    (store_of "anayasa" [twin_a; twin_b]) "anayasa" [])
  = [twin_b; twin_a] /\
  @finalQuestions_of ascii_strings fixed_ambient zero_draws (Num 20) [twin_a; twin_b]
  = [twin_b].
Proof. split; vm_compute; reflexivity. Qed.

(** ** The requested count *)

Lemma Number_of_safe (x : Z) : Z.abs x <= MAX_SAFE_INTEGER -> Number_of x = Num x.
Proof.
  intros Hx. unfold Number_of. destruct (Z.abs x <=? MAX_SAFE_INTEGER) eqn:Hle; [done|lia].
Qed.

Lemma ascii_of_code (c : ascii) : c = ascii_of_nat (nat_of_ascii c).
Proof. by rewrite ascii_nat_embedding. Qed.

Lemma digit_value_char (d : Z) : is_digit d -> digit_value (digit_char d) = Some d.
Proof.
  intros [Hlo Hhi]. rewrite <- (Z2Nat.id d) by done.
  assert (Hn : (Z.to_nat d < 10)%nat) by lia.
  generalize dependent (Z.to_nat d). clear d Hlo Hhi. intros n Hn.
  do 10 (destruct n as [|n]; [reflexivity|]). lia.
Qed.

Lemma digit_value_inv (c : ascii) (d : Z) :
  digit_value c = Some d -> is_digit d /\ c = digit_char d.
Proof.
  intros Hd. pose proof (ascii_of_code c) as Hc. unfold digit_value in Hd.
  generalize dependent (nat_of_ascii c). intros n Hd ->.
  destruct ((48 <=? n)%nat && (n <=? 57)%nat) eqn:Hn; [|done].
  injection Hd as <-. apply andb_true_iff in Hn as [Hlo%Nat.leb_le Hhi%Nat.leb_le].
  do 48 (destruct n as [|n]; [lia|]).
  do 10 (destruct n as [|n]; [split; [unfold is_digit; lia|reflexivity]|]). lia.
Qed.

Lemma append_assoc (a b c : string) : (a +:+ b) +:+ c = a +:+ b +:+ c.
Proof.
  induction a as [|x a IH]; [done|].
  change (String x ((a +:+ b) +:+ c) = String x (a +:+ b +:+ c)). by rewrite IH.
Qed.

Lemma digit_char_not_sign (d : Z) :
  is_digit d -> digit_char d ≠ "-"%char /\ digit_char d ≠ "+"%char.
Proof.
  intros Hd. pose proof (digit_value_char d Hd) as Hv.
  split; intros Heq; rewrite Heq in Hv; done.
Qed.

(** A digit and a sign are no white space, and no first byte of one. *)
Lemma trim_start_digit (d : Z) (rest : string) :
  is_digit d -> trim_start (String (digit_char d) rest) = String (digit_char d) rest.
Proof.
  intros [Hlo Hhi]. rewrite <- (Z2Nat.id d) by done.
  assert (Hn : (Z.to_nat d < 10)%nat) by lia.
  generalize dependent (Z.to_nat d). clear d Hlo Hhi. intros n Hn.
  do 10 (destruct n as [|n]; [by destruct rest as [|? [|? ?]]|]). lia.
Qed.

Lemma trim_start_sign (sign rest : string) :
  sign ∈ ["+"; "-"] -> trim_start (sign +:+ rest) = sign +:+ rest.
Proof.
  intros Hsign. repeat (apply elem_of_cons in Hsign as [->|Hsign]);
    [by destruct rest as [|? [|? ?]]..|by apply elem_of_nil in Hsign].
Qed.

Lemma trim_start_white_space (w s : string) :
  w ∈ white_space -> trim_start (w +:+ s) = trim_start s.
Proof.
  intros Hw. unfold white_space, white_space_bytes in Hw. simpl in Hw.
  repeat (apply elem_of_cons in Hw as [->|Hw]); try reflexivity.
  by apply elem_of_nil in Hw.
Qed.

Lemma trim_start_concat (ws : list string) (s : string) :
  Forall (fun w => w ∈ white_space) ws ->
  trim_start (concat_strings ws +:+ s) = trim_start s.
Proof.
  induction 1 as [|w ws Hw _ IH]; [done|]. simpl.
  rewrite append_assoc.
  rewrite trim_start_white_space by done. exact IH.
Qed.

(** The digits of a numeral are read up to the first character that is
    no digit. *)
Lemma digits_prefix_numeral (ds : list Z) (rest : string) (acc : option Z) :
  Forall is_digit ds -> starts_with_digit rest = false ->
  digits_prefix (digits_string ds +:+ rest) acc =
  match ds with
  | [] => acc
  | _ => Some (fold_left (fun a d => 10 * a + d) ds (default 0 acc))
  end.
Proof.
  intros Hds Hrest. revert acc. induction Hds as [|d ds Hd _ IH]; intros acc.
  - simpl. destruct rest as [|c rest]; [done|]. simpl in *.
    destruct (digit_value c); [|done]. by apply bool_decide_eq_false in Hrest as [].
  - change (digits_string (d :: ds) +:+ rest)
      with (String (digit_char d) (digits_string ds +:+ rest)).
    simpl. rewrite (digit_value_char d Hd), IH. by destruct ds.
Qed.

(** The three ways [parseInt] goes on after the white space. *)
Lemma parseInt_cases (s : string) :
  (exists rest, trim_start s = String "-" rest /\
     parseInt s = match digits_prefix rest None with
                  | Some mathInt => Number_of (- mathInt)
                  | None => NaN
                  end) \/
  (exists rest, trim_start s = String "+" rest /\
     parseInt s = match digits_prefix rest None with
                  | Some mathInt => Number_of mathInt
                  | None => NaN
                  end) \/
  ((forall rest, trim_start s ≠ String "-" rest /\ trim_start s ≠ String "+" rest) /\
   parseInt s = match digits_prefix (trim_start s) None with
                | Some mathInt => Number_of mathInt
                | None => NaN
                end).
Proof.
  unfold parseInt. destruct (trim_start s) as [|c rest].
  - right. right. split; [by intros rest|done].
  - destruct (decide (c = "-"%char)) as [->|Hminus];
      [left; exists rest; split; [done|];
       destruct (digits_prefix rest None) as [m|]; [|done];
       by replace (-1 * m) with (- m) by lia|].
    destruct (decide (c = "+"%char)) as [->|Hplus];
      [right; left; exists rest; split; [done|];
       destruct (digits_prefix rest None) as [m|]; [|done];
       by replace (1 * m) with m by lia|].
    right. right. split; [intros rest'; split; congruence|].
    destruct c as [[] [] [] [] [] [] [] []]; try done;
      (destruct (digits_prefix _ None) as [m|]; [|done];
       by replace (1 * m) with m by lia).
Qed.

(** After white space and a sign, a digit: [parseInt] returns the Number
    value for the signed integer that the digits write. *)
Lemma parseInt_signed (ws : list string) (sign : string) (d : Z) (tail : string) :
  Forall (fun w => w ∈ white_space) ws -> sign ∈ signs -> is_digit d ->
  parseInt (concat_strings ws +:+ sign +:+ String (digit_char d) tail) =
  match digits_prefix (String (digit_char d) tail) None with
  | Some mathInt => Number_of (signed sign mathInt)
  | None => NaN
  end.
Proof.
  intros Hws Hsign Hd.
  set (s := concat_strings ws +:+ sign +:+ String (digit_char d) tail).
  assert (Htrim : trim_start s = sign +:+ String (digit_char d) tail).
  { unfold s. rewrite trim_start_concat by done.
    unfold signs in Hsign. apply elem_of_cons in Hsign as [->|Hsign].
    - apply (trim_start_digit d _ Hd).
    - by apply trim_start_sign. }
  destruct (digit_char_not_sign d Hd) as [Hminus Hplus].
  unfold signs in Hsign.
  destruct (parseInt_cases s) as [(r & Hr & ->)|[(r & Hr & ->)|[Hr ->]]];
    rewrite Htrim in Hr;
    repeat (apply elem_of_cons in Hsign as [->|Hsign]);
    try (by apply elem_of_nil in Hsign); try done.
  - by injection Hr as Hc _.
  - by injection Hr as <-.
  - by injection Hr as Hc _.
  - by injection Hr as <-.
  - by rewrite Htrim.
  - by destruct (Hr (String (digit_char d) tail)) as [_ []].
  - by destruct (Hr (String (digit_char d) tail)) as [[] _].
Qed.

(** What [parseInt] returns for a numeral and what follows it. *)
Lemma parseInt_numeral (ws : list string) (sign : string) (ds : list Z) (rest : string) :
  Forall (fun w => w ∈ white_space) ws -> sign ∈ signs ->
  ds ≠ [] -> Forall is_digit ds -> starts_with_digit rest = false ->
  parseInt (concat_strings ws +:+ sign +:+ digits_string ds +:+ rest) =
  Number_of (signed sign (digits_value ds)).
Proof.
  intros Hws Hsign Hne Hds Hrest.
  pose proof (digits_prefix_numeral ds rest None Hds Hrest) as Hdigits.
  destruct ds as [|d ds]; [done|]. apply Forall_cons in Hds as [Hd Hds].
  change (digits_string (d :: ds) +:+ rest)
    with (String (digit_char d) (digits_string ds +:+ rest)) in *.
  by rewrite parseInt_signed, Hdigits.
Qed.

Lemma digits_prefix_Some (s : string) (acc : Z) : is_Some (digits_prefix s (Some acc)).
Proof.
  revert acc. induction s as [|c s IH]; intros acc; simpl; [done|].
  destruct (digit_value c); [apply IH|done].
Qed.

Lemma Number_of_not_NaN (x : Z) : Number_of x ≠ NaN.
Proof.
  unfold Number_of. destruct (Z.abs x <=? MAX_SAFE_INTEGER); [done|].
  cbv zeta. by destruct (2 ^ 1024 <=? _).
Qed.

(** A string that starts with an integer is read as a number. *)
Lemma starts_with_integer_parseInt (s : string) :
  starts_with_integer s -> parseInt s ≠ NaN.
Proof.
  intros (ws & sign & ds & rest & Hws & Hsign & Hne & Hds & ->).
  destruct ds as [|d ds]; [done|]. apply Forall_cons in Hds as [Hd Hds].
  change (digits_string (d :: ds) +:+ rest)
    with (String (digit_char d) (digits_string ds +:+ rest)).
  rewrite parseInt_signed by done. simpl. rewrite (digit_value_char d Hd).
  destruct (digits_prefix_Some (digits_string ds +:+ rest) (10 * 0 + d)) as [m ->].
  apply Number_of_not_NaN.
Qed.

(** Membership in a list that is written out. *)
Ltac in_list :=
  unfold white_space, white_space_bytes; simpl;
  repeat first [apply list_elem_of_here | apply list_elem_of_further].

(** What the three tests of [trim_start] accept is in the list of the
    white space. *)
Lemma white_space_1 (c : ascii) : is_white_space c = true -> String c "" ∈ white_space.
Proof.
  intros Hk. pose proof (ascii_of_code c) as Hc. unfold is_white_space in Hk.
  generalize dependent (nat_of_ascii c). intros k Hk ->.
  assert (Hcases : k ∈ [9; 10; 11; 12; 13; 32]%nat).
  { apply orb_true_iff in Hk as [[?%Nat.leb_le ?%Nat.leb_le]%andb_true_iff|?%Nat.eqb_eq].
    - assert (k = 9 \/ k = 10 \/ k = 11 \/ k = 12 \/ k = 13)%nat as Hk by lia.
      destruct Hk as [->|[->|[->|[->| ->]]]]; in_list.
    - subst. in_list. }
  repeat (apply elem_of_cons in Hcases as [->|Hcases]);
    [in_list..|by apply elem_of_nil in Hcases].
Qed.

Lemma white_space_2 (c1 c2 : ascii) :
  is_white_space2 c1 c2 = true -> String c1 (String c2 "") ∈ white_space.
Proof.
  unfold is_white_space2.
  intros [Hc1%Nat.eqb_eq Hc2%Nat.eqb_eq]%andb_true_iff.
  rewrite (ascii_of_code c1), (ascii_of_code c2), Hc1, Hc2. in_list.
Qed.

Lemma white_space_3 (c1 c2 c3 : ascii) :
  is_white_space3 c1 c2 c3 = true ->
  String c1 (String c2 (String c3 "")) ∈ white_space.
Proof.
  intros H3. unfold is_white_space3 in H3.
  rewrite (ascii_of_code c1), (ascii_of_code c2), (ascii_of_code c3).
  generalize dependent (nat_of_ascii c3). generalize dependent (nat_of_ascii c2).
  generalize dependent (nat_of_ascii c1). intros n1 n2 n3 H3.
  assert (Hcases : (n1, n2, n3) ∈
            [(225, 154, 128); (226, 128, 128); (226, 128, 129); (226, 128, 130);
             (226, 128, 131); (226, 128, 132); (226, 128, 133); (226, 128, 134);
             (226, 128, 135); (226, 128, 136); (226, 128, 137); (226, 128, 138);
             (226, 128, 168); (226, 128, 169); (226, 128, 175); (226, 129, 159);
             (227, 128, 128); (239, 187, 191)]%nat).
  { repeat match goal with
           | Hx : (_ =? _)%nat = true |- _ => apply Nat.eqb_eq in Hx
           | Hx : (_ <=? _)%nat = true |- _ => apply Nat.leb_le in Hx
           | Hx : (_ || _) = true |- _ => apply orb_true_iff in Hx as [Hx|Hx]
           | Hx : (_ && _) = true |- _ => apply andb_true_iff in Hx as [Hx ?]
           end; subst; try (by in_list).
    assert (n3 = 128 \/ n3 = 129 \/ n3 = 130 \/ n3 = 131 \/ n3 = 132 \/ n3 = 133 \/
            n3 = 134 \/ n3 = 135 \/ n3 = 136 \/ n3 = 137 \/ n3 = 138)%nat as Hn by lia.
    destruct Hn as [->|[->|[->|[->|[->|[->|[->|[->|[->|[->| ->]]]]]]]]]]; in_list. }
  repeat (apply elem_of_cons in Hcases as [[= -> -> ->]|Hcases]);
    [in_list..|by apply elem_of_nil in Hcases].
Qed.

(** The white space that [trim_start] has skipped. *)
Lemma trim_start_skipped_upto (n : nat) (s : string) :
  (String.length s <= n)%nat ->
  exists ws, Forall (fun w => w ∈ white_space) ws /\
             s = concat_strings ws +:+ trim_start s.
Proof.
  revert s. induction n as [|n IH]; intros s Hlen;
    (destruct s as [|c1 rest1]; [by exists []|]); [simpl in Hlen; lia|].
  assert (Hlater : forall (w tail : string),
            w ∈ white_space -> String c1 rest1 = w +:+ tail ->
            (String.length tail <= n)%nat ->
            trim_start (String c1 rest1) = trim_start tail ->
            exists ws, Forall (fun w => w ∈ white_space) ws /\
                       String c1 rest1 = concat_strings ws +:+ trim_start (String c1 rest1)).
  { intros w tail Hw Heq Hlt Htrim. destruct (IH tail Hlt) as (ws & Hws & Htail).
    exists (w :: ws). split; [by constructor|].
    change (concat_strings (w :: ws)) with (w +:+ concat_strings ws).
    rewrite append_assoc, Htrim, <- Htail. exact Heq. }
  simpl in Hlen.
  destruct (is_white_space c1) eqn:H1.
  { apply (Hlater (String c1 "") rest1);
      [by apply white_space_1|done|lia|by simpl; rewrite H1]. }
  destruct rest1 as [|c2 rest2]; [by exists []; simpl; rewrite H1|].
  destruct (is_white_space2 c1 c2) eqn:H2.
  { apply (Hlater (String c1 (String c2 "")) rest2);
      [by apply white_space_2|done|simpl in *; lia|by simpl; rewrite H1, H2]. }
  destruct rest2 as [|c3 rest3]; [by exists []; simpl; rewrite H1, H2|].
  destruct (is_white_space3 c1 c2 c3) eqn:H3.
  { apply (Hlater (String c1 (String c2 (String c3 ""))) rest3);
      [by apply white_space_3|done|simpl in *; lia|by simpl; rewrite H1, H2, H3]. }
  exists []. simpl. by rewrite H1, H2, H3.
Qed.

Lemma trim_start_skipped (s : string) :
  exists ws, Forall (fun w => w ∈ white_space) ws /\
             s = concat_strings ws +:+ trim_start s.
Proof. by apply (trim_start_skipped_upto (String.length s)). Qed.

Lemma digits_prefix_head (s : string) (mathInt : Z) :
  digits_prefix s None = Some mathInt ->
  exists d rest, is_digit d /\ s = String (digit_char d) rest.
Proof.
  destruct s as [|c rest]; [done|]. simpl.
  destruct (digit_value c) as [d|] eqn:Hc; [|done]. intros _.
  apply digit_value_inv in Hc as [Hd ->]. by exists d, rest.
Qed.

(** [parseInt] returns a number only for a string that starts with an
    integer. *)
Lemma parseInt_integer (s : string) : parseInt s ≠ NaN -> starts_with_integer s.
Proof.
  intros Hs. destruct (trim_start_skipped s) as (ws & Hws & Heq).
  destruct (parseInt_cases s) as [(r & Hr & Hp)|[(r & Hr & Hp)|[_ Hp]]];
    rewrite Hp in Hs.
  - destruct (digits_prefix r None) as [m|] eqn:Hm; [|done].
    apply digits_prefix_head in Hm as (d & rest & Hd & ->).
    exists ws, "-", [d], rest. rewrite Heq, Hr.
    split; [done|]. split; [in_list|]. split; [done|]. split; [by constructor|done].
  - destruct (digits_prefix r None) as [m|] eqn:Hm; [|done].
    apply digits_prefix_head in Hm as (d & rest & Hd & ->).
    exists ws, "+", [d], rest. rewrite Heq, Hr.
    split; [done|]. split; [in_list|]. split; [done|]. split; [by constructor|done].
  - destruct (digits_prefix (trim_start s) None) as [m|] eqn:Hm; [|done].
    apply digits_prefix_head in Hm as (d & rest & Hd & Hr).
    exists ws, "", [d], rest. rewrite Heq, Hr.
    split; [done|]. split; [in_list|]. split; [done|]. split; [by constructor|done].
Qed.

Lemma digits_value_from (ds : list Z) (acc : Z) :
  Forall is_digit ds -> 0 <= acc -> 0 <= fold_left (fun a d => 10 * a + d) ds acc.
Proof.
  intros Hds. revert acc.
  induction Hds as [|d ds [Hlo Hhi] _ IH]; intros acc Hacc; simpl; [done|].
  apply IH. lia.
Qed.

Lemma digits_value_nonneg (ds : list Z) : Forall is_digit ds -> 0 <= digits_value ds.
Proof. intros Hds. by apply digits_value_from. Qed.

Lemma digits_string_ne (ds : list Z) (pre rest : string) :
  ds ≠ [] -> pre +:+ digits_string ds +:+ rest ≠ "".
Proof.
  intros Hne. destruct ds as [|d ds]; [done|]. by destruct pre.
Qed.

Lemma or_else_string (s b : string) : s ≠ "" -> or_else (Some s) b = s.
Proof. intros Hs. unfold or_else. by rewrite decide_False. Qed.

Lemma digits_string_app (ds more : list Z) (rest : string) :
  digits_string (ds ++ more) +:+ rest = digits_string ds +:+ digits_string more +:+ rest.
Proof.
  induction ds as [|d ds IH]; [done|].
  change (String (digit_char d) (digits_string (ds ++ more) +:+ rest)
          = String (digit_char d) (digits_string ds +:+ digits_string more +:+ rest)).
  by rewrite IH.
Qed.

(** The digits that a string starts with, and what follows them. *)
Lemma digits_then_rest (s : string) :
  exists ds rest, Forall is_digit ds /\ starts_with_digit rest = false /\
                  s = digits_string ds +:+ rest.
Proof.
  induction s as [|c s (ds & rest & Hds & Hrest & ->)]; [by exists [], ""|].
  destruct (digit_value c) as [d|] eqn:Hc.
  - apply digit_value_inv in Hc as [Hd ->]. exists (d :: ds), rest.
    split; [by constructor|done].
  - exists [], (String c (digits_string ds +:+ rest)). split; [done|]. split; [|done].
    simpl. rewrite Hc. by apply bool_decide_eq_false_2; intros [].
Qed.

(** The integer that a string starts with can be taken whole: with all
    its digits. *)
Lemma starts_with_integer_whole (s : string) :
  starts_with_integer s ->
  exists ws sign ds rest,
    Forall (fun w => w ∈ white_space) ws /\ sign ∈ signs /\
    ds ≠ [] /\ Forall is_digit ds /\ starts_with_digit rest = false /\
    s = concat_strings ws +:+ sign +:+ digits_string ds +:+ rest.
Proof.
  intros (ws & sign & ds & tail & Hws & Hsign & Hne & Hds & ->).
  destruct (digits_then_rest tail) as (more & rest & Hmore & Hrest & ->).
  exists ws, sign, (ds ++ more), rest.
  split; [done|]. split; [done|]. split; [by destruct ds|].
  split; [by apply Forall_app|]. split; [done|]. by rewrite digits_string_app.
Qed.

(** C8 (amended). The requested count is [parseInt] of the count
    parameter, with ["20"] in its place when the parameter is absent or
    empty. So it is 20 when the parameter is unspecified or empty. When
    the parameter starts with an integer, that is with decimal digits
    after optional white space and an optional sign, the count is the
    Number value for that integer with all its digits, whatever follows
    them: the integer itself, positive, zero or negative, within the safe
    integer range. In every other case it is [NaN]. *)
Theorem questionCount_default (searchParams : list (string * string)) :
  let count := searchParams_get searchParams "count" in
  ((count = None \/ count = Some "") -> questionCount_of searchParams = Num 20) /\
  (forall ws sign ds rest,
     Forall (fun w => w ∈ white_space) ws -> sign ∈ signs ->
     ds ≠ [] -> Forall is_digit ds -> starts_with_digit rest = false ->
     count = Some (concat_strings ws +:+ sign +:+ digits_string ds +:+ rest) ->
     questionCount_of searchParams = Number_of (signed sign (digits_value ds)) /\
     (digits_value ds <= MAX_SAFE_INTEGER ->
      questionCount_of searchParams = Num (signed sign (digits_value ds)))) /\
  (forall s, count = Some s -> s ≠ "" -> ¬ starts_with_integer s ->
     questionCount_of searchParams = NaN) /\
  (forall s, count = Some s -> starts_with_integer s ->
     exists ws sign ds rest,
       Forall (fun w => w ∈ white_space) ws /\ sign ∈ signs /\
       ds ≠ [] /\ Forall is_digit ds /\ starts_with_digit rest = false /\
       s = concat_strings ws +:+ sign +:+ digits_string ds +:+ rest /\
       questionCount_of searchParams = Number_of (signed sign (digits_value ds))).
Proof.
  intros count.
  assert (Hnumeral : forall ws sign ds rest,
     Forall (fun w => w ∈ white_space) ws -> sign ∈ signs ->
     ds ≠ [] -> Forall is_digit ds -> starts_with_digit rest = false ->
     count = Some (concat_strings ws +:+ sign +:+ digits_string ds +:+ rest) ->
     questionCount_of searchParams = Number_of (signed sign (digits_value ds))).
  { intros ws sign ds rest Hws Hsign Hne Hds Hrest Hcount.
    unfold questionCount_of. fold count. rewrite Hcount, or_else_string.
    - by apply parseInt_numeral.
    - rewrite <- append_assoc. by apply digits_string_ne. }
  split; [|split; [|split]].
  - unfold questionCount_of. fold count. intros [-> | ->]; reflexivity.
  - intros ws sign ds rest Hws Hsign Hne Hds Hrest Hcount.
    rewrite (Hnumeral ws sign ds rest) by done. split; [done|]. intros Hsafe.
    apply Number_of_safe. pose proof (digits_value_nonneg ds Hds).
    unfold signed. destruct (decide (sign = "-")); lia.
  - unfold questionCount_of. fold count.
    intros s -> Hs Hno. rewrite or_else_string by done.
    destruct (decide (parseInt s = NaN)) as [Hnan|Hnum]; [done|].
    by apply parseInt_integer in Hnum.
  - intros s Hcount Hint.
    destruct (starts_with_integer_whole s Hint)
      as (ws & sign & ds & rest & Hws & Hsign & Hne & Hds & Hrest & ->).
    exists ws, sign, ds, rest. repeat (split; [done|]).
    by apply (Hnumeral ws sign ds rest).
Qed.

(** Witness of C8: no count in the query string, [?count=35], a signed
    count after a no-break space and before a unit, and a word. *)
Lemma questionCount_default_witness :
  questionCount_of [("lang", "tr")] = Num 20 /\
  questionCount_of [("count", "35")] = Num 35 /\
  questionCount_of [("count", String "194" (String "160" "-7px"))] = Num (-7) /\
  questionCount_of [("count", "abc")] = NaN.
Proof.
  pose proof (questionCount_default [("lang", "tr")]) as [Habsent _].
  pose proof (questionCount_default [("count", "35")]) as (_ & Hnumeral & _).
  pose proof (questionCount_default [("count", String "194" (String "160" "-7px"))])
    as (_ & Hspaced & _).
  pose proof (questionCount_default [("count", "abc")]) as (_ & _ & Hword & _).
  split; [|split; [|split]].
  - apply Habsent. left. reflexivity.
  - destruct (Hnumeral [] "" [3; 5] "") as [_ Hsafe];
      [constructor|in_list|done|repeat constructor; unfold is_digit; lia
      |reflexivity|reflexivity|].
    apply Hsafe. by vm_compute.
  - destruct (Hspaced [String "194" (String "160" "")] "-" [7] "px") as [_ Hsafe];
      [repeat constructor; in_list|in_list|done
      |repeat constructor; unfold is_digit; lia|reflexivity|reflexivity|].
    apply Hsafe. by vm_compute.
  - apply (Hword "abc"); [reflexivity|done|].
    intros Hint. by apply starts_with_integer_parseInt in Hint.
Defined.

(** C8 as stated fails: a count that is not a number gives [NaN], not 20,
    and the counts 0 and -5 are taken as they are. *)
Lemma questionCount_unparsable :
  questionCount_of [("count", "abc")] = NaN /\
  questionCount_of [("count", "abc")] ≠ Num 20 /\
  questionCount_of [("count", "0")] = Num 0 /\
  questionCount_of [("count", "-5")] = Num (-5) /\
  ¬ (exists n : Z, 0 < n /\ questionCount_of [("count", "abc")] = Num n).
Proof.
  repeat split; try reflexivity; try discriminate.
  intros (n & _ & Hn). discriminate Hn.
Qed.

(** ** The timer *)

Lemma session_eta (s : Session) : setTimeLeft s (timeLeft s) = s.
Proof. by destruct s. Qed.

(** Up to 2^53 the decrement is exact. *)
Lemma tick_decrement (s : Session) (t : Z) :
  timer_running s = true -> timeLeft s = Num t -> 1 < t <= MAX_SAFE_INTEGER + 1 ->
  tick s = setTimeLeft s (Num (t - 1)).
Proof.
  intros Hrun Ht Hgt. unfold tick, timer_callback. rewrite Hrun, Ht. simpl.
  destruct (t <=? 1) eqn:Hle; [lia|]. by rewrite Number_of_safe by lia.
Qed.

Lemma tick_expire (s : Session) (t : Z) :
  timer_running s = true -> timeLeft s = Num t -> t <= 1 ->
  tick s = expired s.
Proof.
  intros Hrun Ht Hle. unfold tick, timer_callback. rewrite Hrun, Ht. simpl.
  destruct (t <=? 1) eqn:Hle'; [done|lia].
Qed.

Lemma tick_expired (s : Session) : tick (expired s) = expired s.
Proof. unfold tick, timer_running. simpl. done. Qed.

Lemma ticks_succ (n : nat) (s : Session) : ticks (S n) s = tick (ticks n s).
Proof. reflexivity. Qed.

(** While fewer seconds have passed than the budget holds, only the
    counter has changed. *)
Lemma ticks_before (n : nat) (s : Session) (t : Z) :
  timer_running s = true -> timeLeft s = Num t -> t <= MAX_SAFE_INTEGER + 1 ->
  Z.of_nat n < t ->
  ticks n s = setTimeLeft s (Num (t - Z.of_nat n)).
Proof.
  intros Hrun Ht Hsafe. induction n as [|n IH]; intros Hlt.
  - simpl. rewrite Z.sub_0_r, <- Ht. by rewrite session_eta.
  - rewrite ticks_succ, IH by lia.
    rewrite (tick_decrement _ (t - Z.of_nat n)); [|done|done|lia].
    destruct s. simpl. do 2 f_equal. lia.
Qed.

(** Once as many seconds have passed as the budget holds, and at least
    one, the session has expired. *)
Lemma ticks_after (n : nat) (s : Session) (t : Z) :
  timer_running s = true -> timeLeft s = Num t -> t <= MAX_SAFE_INTEGER + 1 ->
  t <= Z.of_nat n -> (1 <= n)%nat ->
  ticks n s = expired s.
Proof.
  intros Hrun Ht Hsafe. induction n as [|n IH]; intros Hle Hpos; [lia|].
  rewrite ticks_succ.
  destruct (decide (Z.of_nat n < t)) as [Hlt|Hge].
  - rewrite (ticks_before n s t) by done.
    rewrite (tick_expire _ (t - Z.of_nat n)); [by destruct s|done|done|lia].
  - destruct n as [|n].
    + simpl. apply (tick_expire s t); [done|done|lia].
    + rewrite IH by lia. apply tick_expired.
Qed.

(** A budget that is not a number never runs out. *)
Lemma ticks_NaN (n : nat) (s : Session) :
  timer_running s = true -> timeLeft s = NaN -> ticks n s = s.
Proof.
  intros Hrun Ht. induction n as [|n IH]; [done|].
  rewrite ticks_succ, IH. unfold tick, timer_callback. rewrite Hrun, Ht. simpl.
  rewrite <- Ht. apply session_eta.
Qed.

(** A session that a tick leaves as it is stays as it is. *)
Lemma ticks_fixed (n : nat) (s : Session) : tick s = s -> ticks n s = s.
Proof. intros Hs. induction n as [|n IH]; [done|]. by rewrite ticks_succ, IH. Qed.

(** C2 (amended). For every session whose timer runs (not submitted, time
    not up) with a starting time budget T of at most 2^53: after N ticks
    with N < T the remaining time is T - N, the time-up flag is clear and
    the state is the one before, Active for a session that was Active;
    after T or more ticks, at least one, the remaining time is clamped at
    0, the time-up flag is set and the state is Submitted, from Active
    and from ConfirmPending alike. *)
Theorem ticks_countdown (s : Session) (T : Z) (N : nat) :
  isSubmitted s = false -> isTimeUp s = false -> timeLeft s = Num T ->
  T <= MAX_SAFE_INTEGER + 1 ->
  (Z.of_nat N < T ->
     timeLeft (ticks N s) = Num (T - Z.of_nat N) /\
     isTimeUp (ticks N s) = false /\
     state_of (ticks N s) = state_of s /\
     (state_of s = Active -> state_of (ticks N s) = Active)) /\
  (T <= Z.of_nat N -> (1 <= N)%nat ->
     timeLeft (ticks N s) = Num 0 /\
     isTimeUp (ticks N s) = true /\
     state_of (ticks N s) = Submitted).
Proof.
  intros Hsub Hup Ht Hsafe.
  assert (Hrun : timer_running s = true)
    by (unfold timer_running; by rewrite Hsub, Hup).
  split.
  - intros Hlt. rewrite (ticks_before N s T) by done.
    unfold state_of. simpl. by rewrite Hup.
  - intros Hle Hpos. rewrite (ticks_after N s T) by done. done.
Qed.

(** Witness of C2: a quiz of one question, in the middle of the
    confirmation dialog. *)
Lemma ticks_countdown_witness :
  let s := handleSubmitRequest (initialSession (Num 1)) in
  (timeLeft (ticks 29 s) = Num 1 /\ state_of (ticks 29 s) = ConfirmPending) /\
  (timeLeft (ticks 30 s) = Num 0 /\ isTimeUp (ticks 30 s) = true /\
   state_of (ticks 30 s) = Submitted).
Proof.
  intros s.
  assert (Hsafe : 30 <= MAX_SAFE_INTEGER + 1) by (by vm_compute).
  pose proof (ticks_countdown s 30 29 eq_refl eq_refl eq_refl Hsafe) as [Hbefore _].
  pose proof (ticks_countdown s 30 30 eq_refl eq_refl eq_refl Hsafe) as [_ Hafter].
  split.
  - destruct (Hbefore ltac:(lia)) as (Ht & _ & Hst & _). split; [exact Ht|exact Hst].
  - apply Hafter; lia.
Defined.

(** C2 as stated fails for a budget beyond 2^53. The session of
    [?count=600479950316066] starts Active with T = 18014398509481980
    seconds, a double whose neighbours are two apart: [prev - 1] lies
    halfway between T - 2 and T and rounds back to T. After one tick the
    remaining time is T, not T - 1; no number of ticks changes the
    session, so T or more ticks do not force Submitted either. *)
Lemma ticks_beyond_safe_integers :
  let T := 18014398509481980 in
  let s := initialSession (questionCount_of [("count", "600479950316066")]) in
  state_of s = Active /\ timeLeft s = Num T /\ (Z.of_nat 1 < T) /\
  timeLeft (ticks 1 s) = Num T /\
  timeLeft (ticks 1 s) ≠ Num (T - Z.of_nat 1) /\
  (forall N, ticks N s = s /\ state_of (ticks N s) ≠ Submitted).
Proof.
  intros T s.
  assert (Hs : s = {| topicQuestions := []; answers := []; isSubmitted := false;
                      timeLeft := Num T; isTimeUp := false;
                      showSubmitConfirm := false |}) by (by vm_compute).
  assert (Htick : tick s = s) by (rewrite Hs; by vm_compute).
  split; [by rewrite Hs|]. split; [by rewrite Hs|]. split; [by vm_compute|].
  split; [by rewrite (ticks_fixed 1 s Htick), Hs|].
  split; [rewrite (ticks_fixed 1 s Htick), Hs; by vm_compute|].
  intros N. rewrite (ticks_fixed N s Htick). split; [done|]. by rewrite Hs.
Qed.

(** Without a tick nothing is forced: the session of [?count=0] starts
    with no time left and is Active until the first tick expires it. *)
Lemma ticks_zero_budget :
  let s := initialSession (questionCount_of [("count", "0")]) in
  timeLeft s = Num 0 /\ state_of (ticks 0 s) = Active /\
  isTimeUp (ticks 0 s) = false /\ state_of (ticks 1 s) = Submitted.
Proof. repeat split. Qed.

(** ** Restart *)

(** What [handleRestart] resets, and what it leaves alone. *)
Lemma handleRestart_resets (questionCount : number) (s : Session) :
  let s' := handleRestart questionCount s in
  answers s' = [] /\
  isSubmitted s' = false /\
  timeLeft s' = num_mul questionCount (Num 30) /\
  isTimeUp s' = false /\
  topicQuestions s' = topicQuestions s /\
  showSubmitConfirm s' = showSubmitConfirm s.
Proof. repeat split. Qed.

Lemma handleRestart_after_submit (questionCount : number) (s : Session) :
  state_of (handleRestart questionCount (handleSubmit s)) = Active.
Proof. reflexivity. Qed.

(** C3 (the code departs from the claim). [handleRestart] clears the
    answers, the submitted flag and the time-up flag, sets the time back
    to [questionCount * 30] and keeps the questions, but it does not touch
    [showSubmitConfirm]. When the time runs out while the confirmation
    dialog is open, the session is Submitted with the dialog flag still
    set, and a restart from there ends in ConfirmPending, not Active. *)
Theorem handleRestart_keeps_confirm_flag :
  let questionCount := Num 1 in
  let events := [Loaded [plain_1]; SubmitRequest] ++ replicate 30 Tick in
  let submitted := run questionCount (initialSession questionCount) events in
  let restarted := step questionCount submitted Restart in
  state_of submitted = Submitted /\
  isTimeUp submitted = true /\
  answers restarted = [] /\
  timeLeft restarted = Num 30 /\
  isTimeUp restarted = false /\
  topicQuestions restarted = topicQuestions submitted /\
  showSubmitConfirm restarted = true /\
  state_of restarted = ConfirmPending /\
  state_of restarted ≠ Active.
Proof. vm_compute. repeat split. discriminate. Qed.

(** ** Answers *)

(** ** Answers *)

Lemma array_get_Some {A} (arr : list A) (i : Z) :
  is_Some (array_get arr i) <-> 0 <= i < Z.of_nat (length arr).
Proof.
  unfold array_get. destruct (i <? 0) eqn:Hneg.
  - split; [intros [x Hx]; done|lia].
  - rewrite lookup_lt_is_Some. lia.
Qed.

Lemma array_get_None {A} (arr : list A) (i : Z) :
  array_get arr i = None <-> ¬ (0 <= i < Z.of_nat (length arr)).
Proof. rewrite <- array_get_Some, eq_None_not_Some. done. Qed.

Section Upsert.
Variables (i : Z) (sel : string) (c : bool).

Lemma find_index_None (prev : list QuizAnswer) :
  List.find (fun a => questionIndex a =? i) prev = None <->
  i ∉ questionIndex <$> prev.
Proof.
  induction prev as [|a prev IH]; simpl.
  - split; [intros _; apply not_elem_of_nil|done].
  - rewrite not_elem_of_cons. destruct (questionIndex a =? i) eqn:Ha.
    + split; [done|]. intros [Hne _]. lia.
    + rewrite IH. split; [|tauto]. intros Hnotin. split; [lia|done].
Qed.

(** The indices of the collection after the update: the same when the
    index was answered before, one more at the end when it was not. *)
Lemma upsert_answer_indices (prev : list QuizAnswer) :
  questionIndex <$> upsert_answer i sel c prev =
  if decide (i ∈ questionIndex <$> prev)
  then questionIndex <$> prev
  else (questionIndex <$> prev) ++ [i].
Proof.
  unfold upsert_answer.
  destruct (List.find (fun a => questionIndex a =? i) prev) as [existing|] eqn:Hfind.
  - rewrite decide_True.
    + rewrite <- list_fmap_compose. apply list_fmap_ext. intros _ a _. simpl.
      by destruct (questionIndex a =? i).
    + destruct (decide (i ∈ questionIndex <$> prev)) as [|Hnotin]; [done|].
      apply find_index_None in Hnotin. congruence.
  - rewrite decide_False by (by apply find_index_None).
    by rewrite fmap_app.
Qed.

Lemma upsert_answer_NoDup (prev : list QuizAnswer) :
  NoDup (questionIndex <$> prev) ->
  NoDup (questionIndex <$> upsert_answer i sel c prev).
Proof.
  intros Hnd. rewrite upsert_answer_indices. case_decide as Hin; [done|].
  apply NoDup_app. split; [done|]. split; [|apply NoDup_singleton].
  intros x Hx ->%list_elem_of_singleton. done.
Qed.

Lemma upsert_answer_elem (prev : list QuizAnswer) (a : QuizAnswer) :
  a ∈ upsert_answer i sel c prev <->
  (a = answer_entry i sel c) \/ (a ∈ prev /\ questionIndex a ≠ i).
Proof.
  unfold upsert_answer.
  destruct (List.find (fun a => questionIndex a =? i) prev) as [existing|] eqn:Hfind.
  - rewrite list_elem_of_fmap. split.
    + intros (b & -> & Hb). destruct (questionIndex b =? i) eqn:Hbi.
      * left. unfold answer_entry. f_equal. lia.
      * right. split; [done|lia].
    + intros [->|[Ha Hne]].
      * apply List.find_some in Hfind as [Hin Hei].
        exists existing. rewrite Hei. split.
        -- unfold answer_entry. f_equal. lia.
        -- by apply list_elem_of_In.
      * exists a. split; [|done]. destruct (questionIndex a =? i) eqn:Hai; [lia|done].
  - apply find_index_None in Hfind.
    rewrite elem_of_app, list_elem_of_singleton. split.
    + intros [Ha| ->]; [|by left]. right. split; [done|]. intros Heq.
      apply Hfind. rewrite <- Heq. by apply list_elem_of_fmap_2.
    + intros [->|[Ha _]]; [by right|by left].
Qed.
End Upsert.

(** The answers of a session reached from the initial one hold at most
    one entry for each question index. *)
Lemma run_answers_NoDup (questionCount : number) (es : list Event) (s : Session) :
  NoDup (questionIndex <$> answers s) ->
  NoDup (questionIndex <$> answers (run questionCount s es)).
Proof.
  revert s. induction es as [|e es IH]; intros s Hs; [done|].
  simpl. apply IH. destruct e; simpl; try done.
  - unfold tick, timer_callback. by repeat case_match.
  - unfold handleAnswer. repeat case_match; simplify_eq; try done.
    simpl. by apply upsert_answer_NoDup.
  - constructor.
Qed.

(** C4. [handleAnswer] leaves a submitted session as it is. On a session
    that is not submitted, for the question at the index, it changes the
    answers only: afterwards the collection holds the entry made of the
    index, the selected option and the correctness, every entry for that
    index is this entry (an earlier answer to the index is replaced, the
    last one wins), the entries for other indices are those from before,
    and the indices stay pairwise distinct, as they are in every session
    reached from the initial one. The stored correctness is true exactly
    when the selected option and the answer of the question are the same
    string. *)
Theorem handleAnswer_upsert (s : Session) (i : Z) (sel : string) :
  (isSubmitted s = true -> handleAnswer s i sel = inr s) /\
  (isSubmitted s = false ->
   forall q, array_get (topicQuestions s) i = Some q ->
     let entry := answer_entry i sel (String.eqb sel (answer q)) in
     exists s', handleAnswer s i sel = inr s' /\
       s' = setAnswers s (answers s') /\
       entry ∈ answers s' /\
       (forall a, a ∈ answers s' -> questionIndex a = i -> a = entry) /\
       (forall a, questionIndex a ≠ i -> a ∈ answers s' <-> a ∈ answers s) /\
       (NoDup (questionIndex <$> answers s) ->
        NoDup (questionIndex <$> answers s')) /\
       (isCorrect entry = true <-> sel = answer q)) /\
  (forall questionCount es,
     NoDup (questionIndex <$>
              answers (run questionCount (initialSession questionCount) es))).
Proof.
  split; [|split].
  - intros Hsub. unfold handleAnswer. by rewrite Hsub.
  - intros Hsub q Hq entry. unfold handleAnswer. rewrite Hsub, Hq.
    eexists. split; [reflexivity|]. simpl.
    split; [done|]. split; [|split; [|split; [|split]]].
    + apply upsert_answer_elem. by left.
    + intros a [->|[_ Hne]]%upsert_answer_elem Hi; [done|done].
    + intros a Hne. rewrite upsert_answer_elem. split.
      * intros [->|[Ha _]]; [done|done].
      * intros Ha. by right.
    + apply upsert_answer_NoDup.
    + apply String.eqb_eq.
  - intros questionCount es. apply run_answers_NoDup. constructor.
Qed.

(** Witness of C4: the second question of a loaded quiz is answered
    wrongly, then correctly. *)
Lemma handleAnswer_upsert_witness :
  let s0 := setTopicQuestions (initialSession (Num 2)) [plain_1; plain_2] in
  let s1 := step (Num 2) s0 (Answer 1 "x") in
  exists s2, handleAnswer s1 1 "y" = inr s2 /\
    answers s1 = [answer_entry 1 "x" false] /\
    answers s2 = [answer_entry 1 "y" true].
Proof.
  intros s0 s1.
  destruct (handleAnswer_upsert s1 1 "y") as (_ & Hopen & _).
  destruct (Hopen eq_refl plain_2 eq_refl) as (s2 & Hs2 & _).
  exists s2. split; [exact Hs2|]. split; [reflexivity|].
  vm_compute in Hs2. injection Hs2 as <-. reflexivity.
Defined.

(** The comparison is the one of [===] on strings: case and white space
    count. *)
Lemma isCorrect_exact :
  String.eqb "Ankara" "ankara" = false /\ String.eqb "Ankara " "Ankara" = false /\
  String.eqb "Ankara" "Ankara" = true.
Proof. repeat split. Qed.

(** C10. [handleAnswer] checks no bound. On a session that is not
    submitted it reads the question at the index and then its answer: the
    read of the answer fails exactly when the index is outside
    [0, length of the prepared sequence), and the handler returns a
    session exactly when it is inside. On a submitted session it returns
    before the read. *)
Theorem handleAnswer_index_safe (s : Session) (i : Z) (sel : string) :
  let inside := 0 <= i < Z.of_nat (length (topicQuestions s)) in
  (handleAnswer s i sel = inl CannotReadProperty <->
     isSubmitted s = false /\ ¬ inside) /\
  (isSubmitted s = false ->
     (inside <-> exists s', handleAnswer s i sel = inr s')) /\
  (isSubmitted s = false ->
     (inside <-> is_Some (array_get (topicQuestions s) i))).
Proof.
  intros inside. unfold handleAnswer, inside.
  destruct (isSubmitted s) eqn:Hsub.
  - split; [|split; done]. split; [done|]. intros [? _]. done.
  - destruct (array_get (topicQuestions s) i) as [q|] eqn:Hq.
    + assert (Hin : 0 <= i < Z.of_nat (length (topicQuestions s)))
        by (apply array_get_Some; by rewrite Hq).
      split; [|split].
      * split; [done|]. intros [_ Hout]. done.
      * intros _. split; [intros _; by eexists|done].
      * intros _. split; [intros _; by eexists|done].
    + assert (Hout : ¬ (0 <= i < Z.of_nat (length (topicQuestions s))))
        by (by apply array_get_None).
      split; [|split].
      * split; [done|]. intros _. done.
      * intros _. split; [done|]. intros [s' Hs']. done.
      * intros _. split; [done|]. intros [x Hx]. done.
Qed.

(** An answer to an index outside a loaded quiz throws. *)
Lemma handleAnswer_outside :
  let s := setTopicQuestions (initialSession (Num 2)) [plain_1; plain_2] in
  handleAnswer s 2 "x" = inl CannotReadProperty /\
  handleAnswer s (-1) "x" = inl CannotReadProperty.
Proof. split; reflexivity. Qed.

(** Witness of C10: a loaded quiz of two questions, index 1 inside and
    index 2 outside. *)
Lemma handleAnswer_index_safe_witness :
  let s := setTopicQuestions (initialSession (Num 2)) [plain_1; plain_2] in
  (exists s', handleAnswer s 1 "x" = inr s') /\
  handleAnswer s 2 "x" = inl CannotReadProperty.
Proof.
  intros s.
  destruct (handleAnswer_index_safe s 1 "x") as (_ & Hinside & _).
  destruct (handleAnswer_index_safe s 2 "x") as (Houtside & _).
  split.
  - apply (Hinside eq_refl). simpl. lia.
  - apply Houtside. split; [reflexivity|]. simpl. lia.
Defined.

(** ** Runs of the definitions on small inputs *)

Example questionKey_run :
  @questionKey ascii_strings (mkQuestion None "  What IS it? " ["B "; " a"; "C"] "a")
  = "what is it?|a|b|c".
Proof. vm_compute. reflexivity. Qed.

Example removeDuplicateQuestions_run :
  @removeDuplicateQuestions ascii_strings fixed_ambient
    [plain_1; mkQuestion (Some "k") " p1" ["Y "; "x"] "x"; plain_3]
  = [with_id plain_1 "q_1700000000000_0_07z"; with_id plain_3 "q_1700000000000_2_27z"].
Proof. vm_compute. reflexivity. Qed.

Example secureShuffleArray_run :
  secureShuffleArray zero_draws [1; 2; 3; 4] = [2; 3; 4; 1].
Proof. vm_compute. reflexivity. Qed.

Example parseInt_run :
  parseInt "  42abc" = Num 42 /\ parseInt "+7" = Num 7 /\ parseInt "3.9" = Num 3 /\
  parseInt "-" = NaN /\ parseInt "" = NaN /\ parseInt "x1" = NaN /\
  parseInt "- 1" = NaN /\ parseInt "007" = Num 7 /\
  parseInt (String "194" (String "160" "42")) = Num 42 /\
  parseInt (String "239" (String "187" (String "191" "+42"))) = Num 42 /\
  parseInt "9007199254740993" = Num 9007199254740992 /\
  parseInt ("-1" +:+ String.string_of_list_ascii (replicate 309 "0"%char))
  = Infinity true.
Proof. repeat split; by vm_compute. Qed.

(** Beyond 2^53 the arithmetic rounds: to the even neighbour at a tie,
    and to an infinity from 2^1024 - 2^970 on. *)
Example Number_of_run :
  Number_of 9007199254740993 = Num 9007199254740992 /\
  Number_of 9007199254740995 = Num 9007199254740996 /\
  Number_of (- 9007199254740995) = Num (- 9007199254740996) /\
  num_mul (Num 600479950316066) (Num 30) = Num 18014398509481980 /\
  num_mul (Num 600479950316069) (Num 30) = Num 18014398509482072 /\
  num_sub (Num 18014398509481980) (Num 1) = Num 18014398509481980 /\
  num_sub (Num 9007199254740992) (Num 1) = Num 9007199254740991 /\
  Number_of (2 ^ 1024 - 2 ^ 970 - 1) = Num (2 ^ 1024 - 2 ^ 971) /\
  Number_of (2 ^ 1024 - 2 ^ 970) = Infinity false /\
  num_mul (Infinity false) (Num 30) = Infinity false /\
  num_mul (Infinity false) (Num 0) = NaN /\
  num_sub (Infinity false) (Num 1) = Infinity false /\
  Math_min (Infinity false) (Num 3) = Num 3 /\
  Math_min (Infinity true) (Num 3) = Infinity true.
Proof. repeat split; by vm_compute. Qed.

Example slice0_run :
  slice0 [1; 2; 3] (Num 2) = [1; 2] /\ slice0 [1; 2; 3] (Num 7) = [1; 2; 3] /\
  slice0 [1; 2; 3] (Num (-1)) = [1; 2] /\ slice0 [1; 2; 3] (Num (-7)) = [] /\
  slice0 [1; 2; 3] NaN = [] /\ slice0 [1; 2; 3] (Infinity false) = [1; 2; 3] /\
  slice0 [1; 2; 3] (Infinity true) = [].
Proof. repeat split. Qed.

Example session_run :
  let s := run (Num 2) (initialSession (Num 2))
             [Loaded [plain_1; plain_2]; Answer 0 "x"; Answer 1 "x"; Answer 1 "y";
              Tick; SubmitRequest; SubmitCancel; Tick; SubmitRequest; Submit;
              Answer 0 "y"; Tick] in
  answers s = [answer_entry 0 "x" true; answer_entry 1 "y" true] /\
  timeLeft s = Num 58 /\ state_of s = Submitted /\ isTimeUp s = false.
Proof. vm_compute. repeat split. Qed.

(** ** Answering an index twice *)

Lemma filter_none {A} (P : A -> Prop) `{forall x, Decision (P x)} (l : list A) :
  (forall x, x ∈ l -> ¬ P x) -> filter P l = [].
Proof.
  induction l as [|a l IH]; intros Hall; [done|].
  rewrite filter_cons_False by (apply Hall; by left).
  apply IH. intros x Hx. apply Hall. by right.
Qed.

(** In a list with pairwise distinct keys, the elements with the key of a
    member are that member alone. *)
Lemma filter_unique_key {A B} `{EqDecision B} (f : A -> B) (l : list A) (x : A) :
  NoDup (f <$> l) -> x ∈ l -> filter (fun a => f a = f x) l = [x].
Proof.
  induction l as [|a l IH]; intros Hnd Hx; [by apply elem_of_nil in Hx|].
  simpl in Hnd. apply NoDup_cons in Hnd as [Ha Hnd].
  apply elem_of_cons in Hx as [->|Hx].
  - rewrite filter_cons_True by done. f_equal. apply filter_none.
    intros b Hb Heq. apply Ha. rewrite <- Heq. by apply list_elem_of_fmap_2.
  - rewrite filter_cons_False; [by apply IH|].
    intros Heq. apply Ha. rewrite Heq. by apply list_elem_of_fmap_2.
Qed.

(** Two answers to the same index leave exactly one entry for it, the one
    of the second answer. *)
Lemma handleAnswer_twice (s : Session) (i : Z) (first second : string) (q : Question) :
  isSubmitted s = false -> array_get (topicQuestions s) i = Some q ->
  NoDup (questionIndex <$> answers s) ->
  exists s1 s2,
    handleAnswer s i first = inr s1 /\ handleAnswer s1 i second = inr s2 /\
    filter (fun a => questionIndex a = i) (answers s2) =
      [answer_entry i second (String.eqb second (answer q))] /\
    length (answers s2) = length (answers s1).
Proof.
  intros Hsub Hq Hnd. unfold handleAnswer. rewrite Hsub, Hq.
  eexists _, _. split; [reflexivity|]. simpl. rewrite Hsub, Hq.
  split; [reflexivity|]. simpl.
  set (first_entry := answer_entry i first (String.eqb first (answer q))).
  set (entry := answer_entry i second (String.eqb second (answer q))).
  set (after_first := upsert_answer i first (String.eqb first (answer q)) (answers s)).
  assert (Hnd1 : NoDup (questionIndex <$> after_first))
    by (by apply upsert_answer_NoDup).
  assert (Hin1 : i ∈ questionIndex <$> after_first).
  { apply list_elem_of_fmap. exists first_entry. split; [done|].
    apply upsert_answer_elem. by left. }
  split.
  - apply (filter_unique_key questionIndex _ entry).
    + by apply upsert_answer_NoDup.
    + apply upsert_answer_elem. by left.
  - rewrite <- !(length_fmap questionIndex), (upsert_answer_indices i second).
    by rewrite decide_True.
Qed.

(** * More of the page *)

(** ** Every order is within reach of the shuffle *)

Section ShuffleReach.
Context {T : Type}.

(** The loop below [k] asks only for bounds up to [k + 1]. *)
Lemma shuffle_loop_ext (rng1 rng2 : RandomSource) (k : nat) (l : list T) :
  (forall m, (m <= k + 1)%nat -> getRandomInt rng1 m = getRandomInt rng2 m) ->
  shuffle_loop rng1 k l = shuffle_loop rng2 k l.
Proof.
  revert l. induction k as [|k IH]; intros l Hext; [done|].
  change (shuffle_loop rng1 (S k) l)
    with (shuffle_loop rng1 k (swap l (S k) (getRandomInt rng1 (S k + 1)))).
  change (shuffle_loop rng2 (S k) l)
    with (shuffle_loop rng2 k (swap l (S k) (getRandomInt rng2 (S k + 1)))).
  rewrite (Hext (S k + 1)%nat) by lia. apply IH. intros m Hm. apply Hext. lia.
Qed.

Lemma Permutation_take_same_drop (l t : list T) (n : nat) :
  l ≡ₚ t -> drop n l = drop n t -> take n l ≡ₚ take n t.
Proof.
  intros Hperm Hdrop.
  rewrite <- (take_drop n l), <- (take_drop n t), Hdrop in Hperm.
  by apply Permutation_app_inv_r in Hperm.
Qed.

(** From any arrangement [l] whose cells above [k] already hold the
    target, some draws bring the loop to the target. *)
Lemma shuffle_loop_reach (k : nat) (l t : list T) :
  l ≡ₚ t -> (k = 0 \/ k < length l)%nat -> drop (S k) l = drop (S k) t ->
  exists rng, shuffle_loop rng k l = t.
Proof.
  revert l. induction k as [|k IH]; intros l Hperm Hk Hdrop.
  - exists (WebCrypto (fun _ => 0%N)). simpl.
    pose proof (Permutation_take_same_drop l t 1 Hperm Hdrop) as Htake.
    rewrite <- (take_drop 1 l), <- (take_drop 1 t), Hdrop. f_equal.
    destruct l as [|x l], t as [|y t]; simpl in *; try done.
    + by apply Permutation_nil_l in Htake.
    + by apply Permutation_nil_r in Htake.
    + rewrite !take_0 in Htake. by apply Permutation_singleton_inj in Htake as ->.
  - destruct Hk as [|Hk]; [lia|].
    pose proof (Permutation_length Hperm) as Hlen.
    destruct (lookup_lt_is_Some_2 l (S k) Hk) as [li Hli].
    destruct (lookup_lt_is_Some_2 t (S k) ltac:(lia)) as [ti Hti].
    pose proof (Permutation_take_same_drop l t (S (S k)) Hperm Hdrop) as Htake.
    assert (Hin : ti ∈ take (S (S k)) l).
    { rewrite Htake. apply list_elem_of_lookup. exists (S k).
      rewrite lookup_take_lt by lia. done. }
    apply list_elem_of_lookup in Hin as [j Hj].
    apply lookup_take_Some in Hj as [Hlj Hjk].
    assert (Hswap : swap l (S k) j = <[j:=li]> (<[S k:=ti]> l)).
    { unfold swap. by rewrite Hli, Hlj. }
    assert (Hperm' : swap l (S k) j ≡ₚ t)
      by (by rewrite swap_Permutation).
    assert (Hdrop' : drop (S k) (swap l (S k) j) = drop (S k) t).
    { rewrite Hswap, (drop_S t ti (S k) Hti), <- Hdrop.
      destruct (decide (j = S k)) as [->|Hne].
      - assert (li = ti) by congruence. subst li.
        rewrite !list_insert_id; [|done|by rewrite list_insert_id].
        by apply drop_S.
      - rewrite drop_insert_lt by lia. rewrite drop_insert_ge by lia.
        rewrite Nat.sub_diag, (drop_S l li (S k) Hli). done. }
    destruct (IH (swap l (S k) j) Hperm') as [rng' Hrng'].
    { right. rewrite swap_length. lia. }
    { exact Hdrop'. }
    set (draw := fun m => if decide (m = S k + 1)%nat then j else getRandomInt rng' m).
    assert (Hrange : forall m, (0 < m)%nat -> (draw m < m)%nat).
    { intros m Hm. unfold draw. case_decide; [lia|]. by apply getRandomInt_range. }
    exists (Build_RandomSource draw Hrange).
    change (shuffle_loop ?r (S k) l)
      with (shuffle_loop r k (swap l (S k) (getRandomInt r (S k + 1)))).
    assert (Hdraw : draw (S k + 1)%nat = j) by (unfold draw; by rewrite decide_True).
    cbn [getRandomInt]. rewrite Hdraw, <- Hrng'. apply shuffle_loop_ext.
    intros m Hm. simpl. unfold draw. by rewrite decide_False by lia.
Qed.
End ShuffleReach.

Lemma secureShuffleArray_reach {T : Type} (array target : list T) :
  target ≡ₚ array -> exists rng, secureShuffleArray rng array = target.
Proof.
  intros Hperm. unfold secureShuffleArray. apply shuffle_loop_reach.
  - done.
  - destruct array; simpl; [by left|right; lia].
  - pose proof (Permutation_length Hperm) as Hlen.
    rewrite !drop_ge; [done|lia|lia].
Qed.

(** X1. The lists that [secureShuffleArray] can return for an array, over
    all randomness sources, are exactly the permutations of the array:
    every order is within reach, and nothing else is. *)
Theorem secureShuffleArray_reaches_permutations {T : Type} (array target : list T) :
  (exists rng, secureShuffleArray rng array = target) <-> target ≡ₚ array.
Proof.
  split.
  - intros [rng <-]. apply secureShuffleArray_perm.
  - apply secureShuffleArray_reach.
Qed.

(** Witness of X1: the draws that turn 1, 2, 3 into 3, 1, 2. *)
Lemma secureShuffleArray_reaches_permutations_witness :
  exists rng, secureShuffleArray rng [1; 2; 3] = [3; 1; 2].
Proof.
  apply (secureShuffleArray_reaches_permutations [1; 2; 3] [3; 1; 2]).
  apply (Permutation_cons_append [1; 2] 3).
Defined.

(** ** More on the deduplication *)

Section DedupMore.
Context `{JSString}.
Variable amb : Ambient.

Lemma backfill_supplied (iq : nat * Question) :
  ¬ lacks_id iq.2 -> backfill amb iq = iq.2.
Proof.
  intros Hid. unfold backfill, with_id.
  rewrite (or_else_supplied _ _ Hid). by destruct iq as [i []].
Qed.

(** With pairwise distinct keys every question is a first occurrence. *)
Lemma first_occurrences_from_all (qs pre : list Question) :
  NoDup (questionKey <$> pre ++ qs) ->
  first_occurrences_from pre qs = imap (fun n => pair (length pre + n)%nat) qs.
Proof.
  revert pre. induction qs as [|q rest IH]; intros pre Hnd; [done|].
  rewrite first_occurrences_from_cons.
  assert (Hnotin : questionKey q ∉ questionKey <$> pre).
  { rewrite fmap_app in Hnd. apply NoDup_app in Hnd as (_ & Hdisj & _).
    intros Hin. apply (Hdisj _ Hin). simpl. by left. }
  rewrite decide_False by done.
  rewrite IH by (by rewrite <- app_assoc).
  rewrite imap_cons. simpl. rewrite Nat.add_0_r. f_equal.
  apply imap_ext. intros n x _. simpl. rewrite length_app. simpl. f_equal. lia.
Qed.

(** A list with distinct keys whose questions all bring an id is returned
    as it is. *)
Lemma removeDuplicateQuestions_fixed (qs : list Question) :
  NoDup (questionKey <$> qs) -> (forall q, q ∈ qs -> ¬ lacks_id q) ->
  removeDuplicateQuestions amb qs = qs.
Proof.
  intros Hnd Hids. rewrite removeDuplicateQuestions_spec.
  rewrite <- first_occurrences_from_nil, first_occurrences_from_all by done.
  apply list_eq. intros i. rewrite list_lookup_fmap, list_lookup_imap.
  destruct (qs !! i) as [q|] eqn:Hq; [|done]. simpl. f_equal.
  apply (backfill_supplied (i, q)), Hids. by apply list_elem_of_lookup_2 in Hq.
Qed.

Lemma removeDuplicateQuestions_keys_NoDup (qs : list Question) :
  NoDup (questionKey <$> removeDuplicateQuestions amb qs).
Proof.
  rewrite removeDuplicateQuestions_spec, <- list_fmap_compose.
  destruct (first_occurrences_from_keys qs []) as [Hnd _].
  by rewrite first_occurrences_from_nil in Hnd.
Qed.

Lemma removeDuplicateQuestions_has_ids (qs : list Question) (o : Question) :
  o ∈ removeDuplicateQuestions amb qs -> ¬ lacks_id o.
Proof.
  rewrite removeDuplicateQuestions_spec.
  intros (iq & -> & _)%list_elem_of_fmap. unfold lacks_id.
  rewrite id_backfill. intros [?|[= Hempty]]; [done|].
  by apply or_else_nonempty in Hempty; [|apply generated_id_nonempty].
Qed.

(** Every key of the input is the key of a first occurrence or of the
    prefix. *)
Lemma first_occurrences_from_cover (qs pre : list Question) (q : Question) :
  q ∈ qs ->
  questionKey q ∈ questionKey <$> pre \/
  questionKey q ∈ key_at <$> first_occurrences_from pre qs.
Proof.
  revert pre. induction qs as [|x rest IH]; intros pre Hq;
    [by apply elem_of_nil in Hq|].
  rewrite first_occurrences_from_cons.
  apply elem_of_cons in Hq as [->|Hq].
  - destruct (decide (questionKey x ∈ questionKey <$> pre)) as [Hin|Hin];
      [by left|]. right. simpl. by left.
  - destruct (IH (pre ++ [x]) Hq) as [Hin|Hin].
    + rewrite fmap_app, elem_of_app in Hin. destruct Hin as [Hin|Hin]; [by left|].
      simpl in Hin. apply list_elem_of_singleton in Hin.
      destruct (decide (questionKey x ∈ questionKey <$> pre)) as [Hx|Hx].
      * left. by rewrite Hin.
      * right. simpl. rewrite Hin. by left.
    + right. rewrite fmap_app, elem_of_app. by right.
Qed.

Lemma removeDuplicateQuestions_elem (qs : list Question) (o : Question) :
  o ∈ removeDuplicateQuestions amb qs ->
  exists i q, qs !! i = Some q /\ o = backfill amb (i, q).
Proof.
  rewrite removeDuplicateQuestions_spec.
  intros ([i q] & -> & [Hl _]%first_occurrences_lookup)%list_elem_of_fmap.
  by exists i, q.
Qed.

Lemma removeDuplicateQuestions_length (qs : list Question) :
  (length (removeDuplicateQuestions amb qs) <= length qs)%nat.
Proof.
  rewrite removeDuplicateQuestions_spec, length_fmap. unfold first_occurrences.
  etrans; [apply length_filter|]. by rewrite length_imap.
Qed.

(** When no question brings an id, the ids after the pass are distinct. *)
Lemma removeDuplicateQuestions_ids_NoDup (qs : list Question) :
  (forall q, q ∈ qs -> lacks_id q) ->
  NoDup (id <$> removeDuplicateQuestions amb qs).
Proof.
  intros Hall. rewrite removeDuplicateQuestions_spec, <- list_fmap_compose.
  apply NoDup_fmap_2_strong; [|apply first_occurrences_NoDup].
  intros iq1 iq2 H1 H2 Heq.
  assert (Hq : forall iq, iq ∈ first_occurrences qs -> lacks_id iq.2).
  { intros iq [Hl _]%first_occurrences_lookup. apply Hall.
    by apply list_elem_of_lookup_2 in Hl. }
  apply (generated_ids_distinct amb qs); auto.
Qed.
End DedupMore.

(** X2. Deduplication has nothing left to do on its own output: a list
    whose keys are pairwise distinct and whose questions all bring a
    non-empty id is returned unchanged, and so a second pass over the
    output of a first pass, at any time and with any random draws, returns
    that output. *)
Theorem removeDuplicateQuestions_idempotent `{JSString} (amb amb' : Ambient)
    (qs : list Question) :
  (NoDup (questionKey <$> qs) -> (forall q, q ∈ qs -> ¬ lacks_id q) ->
     removeDuplicateQuestions amb qs = qs) /\
  removeDuplicateQuestions amb' (removeDuplicateQuestions amb qs) =
  removeDuplicateQuestions amb qs.
Proof.
  split; [apply removeDuplicateQuestions_fixed|].
  apply removeDuplicateQuestions_fixed.
  - apply removeDuplicateQuestions_keys_NoDup.
  - apply removeDuplicateQuestions_has_ids.
Qed.

(** Witness of X2: the two twins have different keys and bring ids. *)
Lemma removeDuplicateQuestions_idempotent_witness :
  @removeDuplicateQuestions ascii_strings fixed_ambient [twin_a; twin_b]
  = [twin_a; twin_b].
Proof.
  destruct (@removeDuplicateQuestions_idempotent ascii_strings fixed_ambient
              fixed_ambient [twin_a; twin_b]) as [Hfixed _].
  apply Hfixed.
  - vm_compute. apply NoDup_cons. split.
    + intros Hin. apply list_elem_of_singleton in Hin. discriminate Hin.
    + apply NoDup_singleton.
  - intros q Hq [Hnone|Hempty];
      repeat (apply elem_of_cons in Hq as [->|Hq]; [discriminate|]);
      by apply elem_of_nil in Hq.
Defined.

(** X3. Deduplication loses no content: the keys of the output are
    exactly the keys of the input, and every output question is an input
    question with nothing but its id filled in. An empty input gives an
    empty output. *)
Theorem removeDuplicateQuestions_same_keys `{JSString} (amb : Ambient)
    (qs : list Question) :
  (forall k, k ∈ questionKey <$> removeDuplicateQuestions amb qs <->
             k ∈ questionKey <$> qs) /\
  (forall o, o ∈ removeDuplicateQuestions amb qs ->
     exists i q, qs !! i = Some q /\
       question o = question q /\ options o = options q /\
       answer o = answer q /\ explanation o = explanation q /\
       (¬ lacks_id q -> o = q)) /\
  (qs = [] <-> removeDuplicateQuestions amb qs = []).
Proof.
  split; [|split].
  - intros k. split.
    + intros (o & -> & Ho)%list_elem_of_fmap.
      apply removeDuplicateQuestions_elem in Ho as (i & q & Hq & ->).
      rewrite questionKey_backfill. simpl.
      apply list_elem_of_fmap_2. by apply list_elem_of_lookup_2 in Hq.
    + intros (q & -> & Hq)%list_elem_of_fmap.
      destruct (first_occurrences_from_cover qs [] q Hq) as [Hin|Hin].
      * simpl in Hin. by apply elem_of_nil in Hin.
      * rewrite removeDuplicateQuestions_spec, <- list_fmap_compose.
        by rewrite first_occurrences_from_nil in Hin.
  - intros o Ho. apply removeDuplicateQuestions_elem in Ho as (i & q & Hq & ->).
    exists i, q. repeat split; try done.
    intros Hid. by apply (backfill_supplied amb (i, q)).
  - split; [by intros ->|]. intros Hout.
    destruct qs as [|q qs]; [done|].
    destruct (first_occurrences_from_cover (q :: qs) [] q) as [Hin|Hin].
    + by left.
    + simpl in Hin. by apply elem_of_nil in Hin.
    + rewrite first_occurrences_from_nil in Hin.
      rewrite removeDuplicateQuestions_spec in Hout.
      apply fmap_nil_inv in Hout. rewrite Hout in Hin. by apply elem_of_nil in Hin.
Qed.

(** ** More on the final pass and on what the session receives *)

Lemma final_pass_keep (pre rest : list Question) (x : Question) :
  (Z.of_nat (length pre) =?
     findIndex (fun q0 => same_id q0 x) (pre ++ x :: rest)) =
  bool_decide (id x ∉ id <$> pre).
Proof.
  destruct (decide (id x ∈ id <$> pre)) as [Hin|Hin].
  - rewrite bool_decide_eq_false_2 by tauto.
    assert (Hhit : Exists (fun y => same_id y x = true) pre).
    { apply list_elem_of_fmap in Hin as (y & Hy & Hypre).
      apply Exists_exists. exists y. split; [done|]. by apply same_id_true. }
    pose proof (findIndex_from_hit (fun q0 => same_id q0 x) pre (x :: rest) 0 Hhit).
    unfold findIndex. apply Z.eqb_neq. lia.
  - rewrite bool_decide_eq_true_2 by done.
    assert (Hskip : Forall (fun y => same_id y x = false) pre).
    { apply Forall_forall. intros y Hy. apply same_id_false. intros Heq.
      apply Hin. rewrite <- Heq. by apply list_elem_of_fmap_2. }
    unfold findIndex.
    rewrite (findIndex_from_skip _ pre (x :: rest) 0 Hskip). simpl.
    assert (Hxx : same_id x x = true) by (by apply same_id_true).
    rewrite Hxx. apply Z.eqb_eq. lia.
Qed.

(** The final pass keeps the order, loses no id, and keeps everything
    when the ids are pairwise distinct. *)
Lemma final_pass_more (arr pre : list Question) :
  let self := pre ++ arr in
  let keep := fun (question0 : Question) (index : nat) =>
    Z.of_nat index =? findIndex (fun q0 => same_id q0 question0) self in
  let out := filter_from keep arr (length pre) in
  out `sublist_of` arr /\
  (forall x, x ∈ arr -> id x ∈ id <$> pre \/ id x ∈ id <$> out) /\
  (NoDup (id <$> pre ++ arr) -> out = arr).
Proof.
  revert pre. induction arr as [|x rest IH]; intros pre self keep out.
  - split; [done|]. split; [|done]. intros x Hx. by apply elem_of_nil in Hx.
  - specialize (IH (pre ++ [x])).
    assert (Hself : (pre ++ [x]) ++ rest = self)
      by (unfold self; by rewrite <- app_assoc).
    assert (Hlen : length (pre ++ [x]) = S (length pre))
      by (rewrite length_app; simpl; lia).
    rewrite Hself, Hlen in IH. simpl in IH. destruct IH as (IHsub & IHcov & IHall).
    assert (Hkeep : keep x (length pre) = bool_decide (id x ∉ id <$> pre))
      by apply final_pass_keep.
    unfold out. simpl. rewrite Hkeep.
    destruct (decide (id x ∈ id <$> pre)) as [Hin|Hin].
    + rewrite bool_decide_eq_false_2 by tauto. split; [|split].
      * by apply sublist_cons.
      * intros y [->|Hy]%elem_of_cons; [by left|].
        destruct (IHcov y Hy) as [Hpre|Hout]; [|by right].
        rewrite fmap_app, elem_of_app in Hpre. destruct Hpre as [?|Hx]; [by left|].
        simpl in Hx. apply list_elem_of_singleton in Hx. left. by rewrite Hx.
      * intros Hnd. exfalso. rewrite fmap_app in Hnd.
        apply NoDup_app in Hnd as (_ & Hdisj & _). apply (Hdisj _ Hin). simpl. by left.
    + rewrite bool_decide_eq_true_2 by done. split; [|split].
      * by apply sublist_skip.
      * intros y [->|Hy]%elem_of_cons; [right; simpl; by left|].
        destruct (IHcov y Hy) as [Hpre|Hout]; [|right; simpl; by right].
        rewrite fmap_app, elem_of_app in Hpre. destruct Hpre as [?|Hx]; [by left|].
        simpl in Hx. apply list_elem_of_singleton in Hx. right. simpl.
        rewrite Hx. by left.
      * intros Hnd. f_equal. apply IHall. exact Hnd.
Qed.

Section PipelineMore.
Context `{JSString}.
Variable amb : Ambient.
Variable rng : RandomSource.

Lemma slice0_sublist {A} (arr : list A) (e : number) : slice0 arr e `sublist_of` arr.
Proof. unfold slice0. apply sublist_take. Qed.

Lemma quizQuestions_sublist (questionCount : number) (q : list Question) :
  quizQuestions_of amb rng questionCount q `sublist_of` shuffledQuestions_of amb rng q.
Proof. unfold quizQuestions_of. apply slice0_sublist. Qed.

Lemma quizQuestions_keys_NoDup (questionCount : number) (q : list Question) :
  NoDup (questionKey <$> quizQuestions_of amb rng questionCount q).
Proof.
  eapply sublist_NoDup; [|apply fmap_sublist, quizQuestions_sublist].
  rewrite (shuffledQuestions_Permutation amb rng q).
  apply removeDuplicateQuestions_keys_NoDup.
Qed.

Lemma quizQuestions_elem (questionCount : number) (q : list Question) (o : Question) :
  o ∈ quizQuestions_of amb rng questionCount q ->
  exists i q0, q !! i = Some q0 /\ o = backfill amb (i, q0).
Proof.
  intros Ho. apply removeDuplicateQuestions_elem.
  rewrite <- (shuffledQuestions_Permutation amb rng q).
  eapply elem_of_sublist; [exact Ho|apply quizQuestions_sublist].
Qed.

Lemma quizQuestions_length (questionCount : number) (q : list Question) :
  (length (quizQuestions_of amb rng questionCount q) <= length q)%nat.
Proof.
  etrans; [apply sublist_length, quizQuestions_sublist|].
  rewrite (Permutation_length (shuffledQuestions_Permutation amb rng q)).
  apply removeDuplicateQuestions_length.
Qed.

Lemma quizQuestions_ids_NoDup (questionCount : number) (q : list Question) :
  (forall q0, q0 ∈ q -> lacks_id q0) ->
  NoDup (id <$> quizQuestions_of amb rng questionCount q).
Proof.
  intros Hall.
  eapply sublist_NoDup; [|apply fmap_sublist, quizQuestions_sublist].
  rewrite (shuffledQuestions_Permutation amb rng q).
  by apply removeDuplicateQuestions_ids_NoDup.
Qed.

(** What the session holds after the mount: nothing, or the sample. *)
Lemma mounted_topicQuestions (store : Store) (slug : string)
    (searchParams : list (string * string)) :
  topicQuestions (mounted amb rng store slug searchParams) = [] \/
  exists response raw,
    store (url_of slug) = Some response /\ ok response = true /\
    json response = Some raw /\
    topicQuestions (mounted amb rng store slug searchParams) =
    quizQuestions_of amb rng (questionCount_of searchParams) raw.
Proof.
  destruct (store (url_of slug)) as [response|] eqn:Hstore.
  - destruct (ok response) eqn:Hok; [destruct (json response) as [raw|] eqn:Hjson|].
    + right. exists response, raw. repeat split; try done.
      by rewrite (mounted_success amb rng store slug searchParams response raw).
    + left. unfold mounted, settle.
      destruct (loadQuestions_failure amb rng store slug (questionCount_of searchParams))
        as (error & ->); [|done].
      unfold fetch_fails. rewrite Hstore. by right.
    + left. unfold mounted, settle.
      destruct (loadQuestions_failure amb rng store slug (questionCount_of searchParams))
        as (error & ->); [|done].
      unfold fetch_fails. rewrite Hstore. by left.
  - left. unfold mounted, settle.
    destruct (loadQuestions_failure amb rng store slug (questionCount_of searchParams))
      as (error & ->); [|done].
    unfold fetch_fails. by rewrite Hstore.
Qed.
End PipelineMore.

(** The elements that the final pass keeps are the ones whose id no
    earlier element has. *)
Lemma final_pass_elem (arr pre : list Question) (o : Question) :
  let self := pre ++ arr in
  let keep := fun (question0 : Question) (index : nat) =>
    Z.of_nat index =? findIndex (fun q0 => same_id q0 question0) self in
  o ∈ filter_from keep arr (length pre) <->
  exists i, arr !! i = Some o /\ id o ∉ id <$> pre ++ take i arr.
Proof.
  revert pre. induction arr as [|x rest IH]; intros pre self keep.
  - simpl. split; [by intros ?%elem_of_nil|by intros (i & ? & _)].
  - specialize (IH (pre ++ [x])).
    assert (Hself : (pre ++ [x]) ++ rest = self)
      by (unfold self; by rewrite <- app_assoc).
    assert (Hlen : length (pre ++ [x]) = S (length pre))
      by (rewrite length_app; simpl; lia).
    rewrite Hself, Hlen in IH. simpl in IH.
    assert (Hkeep : keep x (length pre) = bool_decide (id x ∉ id <$> pre))
      by apply final_pass_keep.
    assert (Hlater : o ∈ filter_from keep rest (S (length pre)) <->
              exists i, (x :: rest) !! S i = Some o /\
                        id o ∉ id <$> pre ++ take (S i) (x :: rest)).
    { split.
      - intros Ho. apply IH in Ho as (i & Hi & Hid). exists i. split; [done|].
        simpl. by rewrite <- app_assoc in Hid.
      - intros (i & Hi & Hid). apply IH. exists i. split; [done|].
        simpl in Hid. by rewrite <- app_assoc. }
    simpl. rewrite Hkeep. destruct (decide (id x ∈ id <$> pre)) as [Hin|Hin].
    + rewrite bool_decide_eq_false_2 by tauto. rewrite Hlater. split.
      * intros (i & Hi & Hid). by exists (S i).
      * intros ([|i] & Hi & Hid); [|by exists i].
        simpl in Hi, Hid. injection Hi as <-. by rewrite app_nil_r in Hid.
    + rewrite bool_decide_eq_true_2 by done. rewrite elem_of_cons, Hlater. split.
      * intros [->|(i & Hi & Hid)]; [|by exists (S i)].
        exists 0%nat. split; [done|]. simpl. by rewrite app_nil_r.
      * intros ([|i] & Hi & Hid); [left; simpl in Hi; congruence|right; by exists i].
Qed.

(** X4. The final uniqueness pass keeps the first question of each id,
    in the order of the sample: a question of the sample is in the output
    exactly when no earlier question of the sample has its id. So the
    output is a sublist of the sample, no two of its questions share an
    id, every id of the sample still occurs in it, and it is the sample
    itself when the ids of the sample are pairwise distinct, as they are
    when no fetched question brings an id of its own. *)
Theorem finalQuestions_first_of_each_id `{JSString} (amb : Ambient)
    (rng : RandomSource) (questionCount : number) (q : list Question) :
  let quiz := quizQuestions_of amb rng questionCount q in
  let final := finalQuestions_of amb rng questionCount q in
  (forall o, o ∈ final <->
     exists i, quiz !! i = Some o /\
       forall j earlier, (j < i)%nat -> quiz !! j = Some earlier -> id earlier ≠ id o) /\
  final `sublist_of` quiz /\
  NoDup (id <$> final) /\
  (forall x, x ∈ quiz -> id x ∈ id <$> final) /\
  (NoDup (id <$> quiz) -> final = quiz) /\
  ((forall q0, q0 ∈ q -> lacks_id q0) -> final = quiz).
Proof.
  intros quiz final.
  destruct (final_pass_more quiz []) as (Hsub & Hcov & Hall).
  destruct (final_pass_from quiz []) as [Hnd _].
  split; [|split; [exact Hsub|split; [exact Hnd|split; [|split; [exact Hall|]]]]].
  - intros o. unfold final, finalQuestions_of, filter_indexed. fold quiz.
    rewrite (final_pass_elem quiz [] o). simpl.
    split; intros (i & Hi & Hfirst); exists i; (split; [done|]).
    + intros j earlier Hj Hearlier Heq. apply Hfirst. rewrite <- Heq.
      apply list_elem_of_fmap_2, list_elem_of_lookup. exists j.
      by rewrite lookup_take_lt.
    + intros (earlier & Heq & Hearlier)%list_elem_of_fmap.
      apply list_elem_of_lookup in Hearlier as (j & Hj).
      apply lookup_take_Some in Hj as [Hj Hlt]. by apply (Hfirst j earlier).
  - intros x Hx. destruct (Hcov x Hx) as [Hnil|Hin]; [|exact Hin].
    simpl in Hnil. by apply elem_of_nil in Hnil.
  - intros Hlack. apply Hall. by apply quizQuestions_ids_NoDup.
Qed.

(** X5. Whatever the store answers and whatever the count parameter says,
    the questions installed into the session have pairwise distinct
    normalized keys: the quiz never shows the same question twice. *)
Theorem mounted_distinct_keys `{JSString} (amb : Ambient) (rng : RandomSource)
    (store : Store) (slug : string) (searchParams : list (string * string)) :
  NoDup (questionKey <$> topicQuestions (mounted amb rng store slug searchParams)).
Proof.
  destruct (mounted_topicQuestions amb rng store slug searchParams)
    as [->|(response & raw & _ & _ & _ & ->)]; [constructor|].
  apply quizQuestions_keys_NoDup.
Qed.

(** X6. Every question installed into the session comes from the list
    that a successful fetch returned: it is one of the fetched questions
    with its id filled in and nothing else changed, and the session never
    holds more questions than were fetched. *)
Theorem mounted_questions_from_store `{JSString} (amb : Ambient) (rng : RandomSource)
    (store : Store) (slug : string) (searchParams : list (string * string))
    (o : Question) :
  o ∈ topicQuestions (mounted amb rng store slug searchParams) ->
  exists response raw i q0,
    store (url_of slug) = Some response /\ ok response = true /\
    json response = Some raw /\ raw !! i = Some q0 /\
    o = backfill amb (i, q0) /\
    (length (topicQuestions (mounted amb rng store slug searchParams))
       <= length raw)%nat.
Proof.
  destruct (mounted_topicQuestions amb rng store slug searchParams)
    as [->|(response & raw & Hstore & Hok & Hjson & ->)].
  - intros Ho. by apply elem_of_nil in Ho.
  - intros Ho. apply quizQuestions_elem in Ho as (i & q0 & Hq0 & ->).
    exists response, raw, i, q0. repeat split; try done.
    apply quizQuestions_length.
Qed.

(** Witness of X6: the first question of a store of two, with two asked. *)
Lemma mounted_questions_from_store_witness :
  exists response raw i q0,
    store_of "anayasa" [plain_1; plain_2] (url_of "anayasa") = Some response /\
    ok response = true /\ json response = Some raw /\ raw !! i = Some q0 /\
    with_id plain_1 "q_1700000000000_0_07z" = backfill fixed_ambient (i, q0) /\
    (length (topicQuestions (@mounted ascii_strings fixed_ambient zero_draws
               (store_of "anayasa" [plain_1; plain_2]) "anayasa" [("count", "2")]))
       <= length raw)%nat.
Proof.
  apply (@mounted_questions_from_store ascii_strings fixed_ambient zero_draws
           (store_of "anayasa" [plain_1; plain_2]) "anayasa" [("count", "2")]).
  vm_compute. apply list_elem_of_In. right. left. reflexivity.
Defined.

(** ** The warning and the edge counts of the sampling *)

Section WarnFacts.
Context `{JSString}.
Variable amb : Ambient.
Variable rng : RandomSource.
Variable store : Store.

Lemma loadQuestions_warned_success (slug : string) (questionCount : number)
    (response : Response) (raw : list Question) :
  store (url_of slug) = Some response -> ok response = true ->
  json response = Some raw ->
  warned (loadQuestions amb rng store slug questionCount) =
  num_gt questionCount (array_length (uniqueQuestions_of amb raw)).
Proof.
  intros Hstore Hok Hjson.
  unfold warned, loadQuestions, fetch, response_json.
  rewrite Hstore. simpl. rewrite Hok, Hjson. simpl.
  by destruct (num_gt questionCount (array_length (uniqueQuestions_of amb raw))).
Qed.

Lemma loadQuestions_warned_failure (slug : string) (questionCount : number) :
  fetch_fails store slug ->
  warned (loadQuestions amb rng store slug questionCount) = false.
Proof.
  intros Hfail.
  by destruct (loadQuestions_failure amb rng store slug questionCount Hfail)
    as (error & ->).
Qed.

Lemma quizQuestions_NaN (q : list Question) : quizQuestions_of amb rng NaN q = [].
Proof.
  unfold quizQuestions_of, availableQuestions_of, slice0. simpl. done.
Qed.

Lemma quizQuestions_negative (c : Z) (q : list Question) :
  c < 0 ->
  quizQuestions_of amb rng (Num c) q =
  take (length (uniqueQuestions_of amb q) - Z.to_nat (- c))
       (shuffledQuestions_of amb rng q).
Proof.
  intros Hc.
  pose proof (Permutation_length (shuffledQuestions_Permutation amb rng q)) as Hlen.
  unfold quizQuestions_of, availableQuestions_of, array_length. simpl.
  rewrite Z.min_l by lia. rewrite slice0_negative by done. by rewrite Hlen.
Qed.
End WarnFacts.

(** X7. After a fetch that succeeds, [loadQuestions] calls [console.warn]
    exactly when the requested count is greater than the number of unique
    questions; for a count that is not negative this is exactly when the
    session receives fewer questions than were requested. A load whose
    fetch fails never warns. *)
Theorem loadQuestions_warns_iff `{JSString} (amb : Ambient) (rng : RandomSource)
    (store : Store) (slug : string) (c : Z) :
  let load := loadQuestions amb rng store slug (Num c) in
  (fetch_fails store slug -> warned load = false) /\
  (forall response raw,
     store (url_of slug) = Some response -> ok response = true ->
     json response = Some raw ->
     (warned load = true <-> Z.of_nat (length (uniqueQuestions_of amb raw)) < c) /\
     (0 <= c ->
      (warned load = true <->
       Z.of_nat (length (quizQuestions_of amb rng (Num c) raw)) < c))).
Proof.
  intros load. split; [apply loadQuestions_warned_failure|].
  intros response raw Hstore Hok Hjson.
  assert (Hwarn : warned load = true <->
                  Z.of_nat (length (uniqueQuestions_of amb raw)) < c).
  { unfold load.
    rewrite (loadQuestions_warned_success amb rng store slug (Num c) response raw)
      by done.
    simpl. apply Z.ltb_lt. }
  split; [exact Hwarn|]. intros Hc. rewrite Hwarn.
  rewrite quizQuestions_take, length_take by done.
  rewrite (Permutation_length (shuffledQuestions_Permutation amb rng raw)). lia.
Qed.

(** X8. The counts that are no sample size: with a count that is not a
    number, and with the count 0, the sample is empty; with a negative
    count -k the sample is the shuffled sequence without its last k
    questions, so it holds the number of unique questions minus k of them,
    and none when there are at most k. *)
Theorem quizQuestions_edge_counts `{JSString} (amb : Ambient) (rng : RandomSource)
    (q : list Question) :
  quizQuestions_of amb rng NaN q = [] /\
  quizQuestions_of amb rng (Num 0) q = [] /\
  (forall c, c < 0 ->
     quizQuestions_of amb rng (Num c) q =
       take (length (uniqueQuestions_of amb q) - Z.to_nat (- c))
            (shuffledQuestions_of amb rng q) /\
     length (quizQuestions_of amb rng (Num c) q) =
       (length (uniqueQuestions_of amb q) - Z.to_nat (- c))%nat).
Proof.
  split; [apply quizQuestions_NaN|]. split.
  - rewrite quizQuestions_take by lia.
    rewrite Z.min_l by lia. reflexivity.
  - intros c Hc. rewrite quizQuestions_negative by done. split; [done|].
    rewrite length_take.
    rewrite (Permutation_length (shuffledQuestions_Permutation amb rng q)). lia.
Qed.

(** ** The screens *)

Lemma step_topicQuestions (questionCount : number) (s : Session) (e : Event) :
  is_Loaded e = false ->
  topicQuestions (step questionCount s e) = topicQuestions s.
Proof.
  destruct e; simpl; try done.
  - intros _. unfold tick, timer_callback. by repeat case_match.
  - intros _. unfold handleAnswer. by repeat case_match; simplify_eq.
Qed.

Lemma run_topicQuestions (questionCount : number) (es : list Event) (s : Session) :
  Forall (fun e => is_Loaded e = false) es ->
  topicQuestions (run questionCount s es) = topicQuestions s.
Proof.
  intros Hes. revert s. induction Hes as [|e es He _ IH]; intros s; [done|].
  simpl. change (fold_left (step questionCount) es ?x) with (run questionCount x es).
  by rewrite IH, step_topicQuestions.
Qed.

Lemma step_answers_empty (questionCount : number) (s : Session) (e : Event) :
  topicQuestions s = [] -> answers s = [] ->
  answers (step questionCount s e) = [].
Proof.
  intros Hq Ha. destruct e; simpl; try done.
  - unfold tick, timer_callback. by repeat case_match.
  - unfold handleAnswer. rewrite Hq. unfold array_get.
    destruct (isSubmitted s); [done|].
    destruct (questionIndex0 <? 0); [done|]. by rewrite lookup_nil.
Qed.

Lemma run_stays_empty (questionCount : number) (es : list Event) (s : Session) :
  Forall (fun e => is_Loaded e = false) es ->
  topicQuestions s = [] -> answers s = [] ->
  topicQuestions (run questionCount s es) = [] /\
  answers (run questionCount s es) = [].
Proof.
  intros Hes. revert s. induction Hes as [|e es He _ IH]; intros s Hq Ha; [done|].
  simpl. change (fold_left (step questionCount) es ?x) with (run questionCount x es).
  apply IH.
  - by rewrite step_topicQuestions.
  - by apply step_answers_empty.
Qed.

Lemma settle_answers (s : Session) (c : Async unit) :
  answers (settle s c) = answers s /\ isSubmitted (settle s c) = isSubmitted s /\
  timeLeft (settle s c) = timeLeft s /\ isTimeUp (settle s c) = isTimeUp s /\
  showSubmitConfirm (settle s c) = showSubmitConfirm s.
Proof.
  unfold settle. generalize (fst c). intros effs. revert s.
  induction effs as [|eff effs IH]; intros s; [done|].
  simpl. destruct (IH (apply_effect s eff)) as (-> & -> & -> & -> & ->).
  by destruct eff.
Qed.

(** X9. A session without questions shows the loading screen, and no
    click or tick takes it away: as long as no load installs questions,
    the page stays on the loading screen and records no answer. This is
    where a failed fetch leaves the page, and a count of 0 or a count that
    is not a number as well. *)
Theorem loading_screen_persists `{JSString} (amb : Ambient) (rng : RandomSource)
    (store : Store) (slug : string) (searchParams : list (string * string))
    (es : list Event) :
  fetch_fails store slug \/ questionCount_of searchParams = NaN \/
    questionCount_of searchParams = Num 0 ->
  Forall (fun e => is_Loaded e = false) es ->
  let questionCount := questionCount_of searchParams in
  let s := run questionCount (mounted amb rng store slug searchParams) es in
  topicQuestions s = [] /\ screen_of s = LoadingScreen /\ answers s = [].
Proof.
  intros Hcase Hes questionCount s.
  assert (Hmount : topicQuestions (mounted amb rng store slug searchParams) = []).
  { destruct (mounted_topicQuestions amb rng store slug searchParams)
      as [Hnil|(response & raw & Hstore & Hok & Hjson & Heq)]; [done|].
    rewrite Heq. destruct Hcase as [Hfail|[Hnan|Hzero]].
    - unfold fetch_fails in Hfail. rewrite Hstore, Hok, Hjson in Hfail.
      by destruct Hfail.
    - rewrite Hnan. apply quizQuestions_NaN.
    - rewrite Hzero, quizQuestions_take by lia. by rewrite Z.min_l by lia. }
  assert (Hanswers : answers (mounted amb rng store slug searchParams) = []).
  { unfold mounted. by destruct (settle_answers
      (initialSession (questionCount_of searchParams))
      (loadQuestions amb rng store slug (questionCount_of searchParams)))
      as (-> & _). }
  destruct (run_stays_empty questionCount es _ Hes Hmount Hanswers) as [Hq Ha].
  split; [exact Hq|]. split; [|exact Ha].
  unfold screen_of. fold s. fold s in Hq. by rewrite Hq.
Qed.

(** Witness of X9: a store that has no file for the topic, then a tick, a
    click on an answer and a request to submit. *)
Lemma loading_screen_persists_witness :
  screen_of (run (Num 20)
               (@mounted ascii_strings fixed_ambient zero_draws (fun _ => None)
                  "anayasa" [])
               [Tick; Answer 0 "x"; SubmitRequest]) = LoadingScreen.
Proof.
  apply (@loading_screen_persists ascii_strings fixed_ambient zero_draws
           (fun _ => None) "anayasa" [] [Tick; Answer 0 "x"; SubmitRequest]).
  - left. exact I.
  - repeat constructor.
Defined.

(** ** Looking answers up *)

Section UpsertFind.
Variables (i : Z) (sel : string) (c : bool).

Lemma find_upsert_same (prev : list QuizAnswer) :
  List.find (fun a => questionIndex a =? i) (upsert_answer i sel c prev) =
  Some (answer_entry i sel c).
Proof.
  unfold upsert_answer.
  destruct (List.find (fun a => questionIndex a =? i) prev) as [existing|] eqn:Hfind.
  - revert Hfind.
    induction prev as [|a prev IH]; intros Hfind; [done|].
    simpl in *. destruct (questionIndex a =? i) eqn:Ha.
    + simpl. rewrite Ha. f_equal. unfold answer_entry. f_equal. lia.
    + simpl. rewrite Ha. by apply IH.
  - clear -Hfind. induction prev as [|a prev IH]; simpl in *.
    + by rewrite Z.eqb_refl.
    + destruct (questionIndex a =? i) eqn:Ha; [done|]. by apply IH.
Qed.

Lemma find_upsert_other (prev : list QuizAnswer) (j : Z) :
  j ≠ i ->
  List.find (fun a => questionIndex a =? j) (upsert_answer i sel c prev) =
  List.find (fun a => questionIndex a =? j) prev.
Proof.
  intros Hne. unfold upsert_answer.
  destruct (List.find (fun a => questionIndex a =? i) prev) as [existing|].
  - induction prev as [|a prev IH]; [done|]. simpl.
    destruct (questionIndex a =? i) eqn:Ha; simpl.
    + assert (Hai : questionIndex a = i) by lia.
      rewrite Hai. destruct (i =? j) eqn:Hij; [lia|]. exact IH.
    + destruct (questionIndex a =? j); [done|]. exact IH.
  - induction prev as [|a prev IH]; simpl.
    + destruct (i =? j) eqn:Hij; [lia|done].
    + destruct (questionIndex a =? j); [done|]. exact IH.
Qed.
End UpsertFind.

(** X10. After an answer that the handler accepts, looking the index up
    returns the entry just made, with the selected option and its
    correctness against the question at the index, and every other index
    looks up as before. A fresh session and a restarted one have no answer
    for any index. *)
Theorem getAnswerForQuestion_after_answer (s s' : Session) (i : Z) (sel : string) :
  isSubmitted s = false -> handleAnswer s i sel = inr s' ->
  (exists q, array_get (topicQuestions s) i = Some q /\
     getAnswerForQuestion s' i = Some (answer_entry i sel (String.eqb sel (answer q)))) /\
  (forall j, j ≠ i -> getAnswerForQuestion s' j = getAnswerForQuestion s j) /\
  (forall questionCount j,
     getAnswerForQuestion (initialSession questionCount) j = None /\
     getAnswerForQuestion (handleRestart questionCount s') j = None).
Proof.
  intros Hsub Hans. unfold handleAnswer in Hans. rewrite Hsub in Hans.
  destruct (array_get (topicQuestions s) i) as [q|] eqn:Hq; [|done].
  injection Hans as <-. split; [|split].
  - exists q. split; [done|]. apply find_upsert_same.
  - intros j Hj. by apply find_upsert_other.
  - done.
Qed.

(** Witness of X10: the first question of a loaded quiz is answered. *)
Lemma getAnswerForQuestion_after_answer_witness :
  let s := setTopicQuestions (initialSession (Num 2)) [plain_1; plain_2] in
  exists s', handleAnswer s 0 "x" = inr s' /\
    getAnswerForQuestion s' 1 = getAnswerForQuestion s 1.
Proof.
  intros s. eexists. split; [reflexivity|].
  refine (proj1 (proj2 (getAnswerForQuestion_after_answer s _ 0 "x" eq_refl eq_refl))
            1 _).
  discriminate.
Defined.

(** ** After the submission *)

Lemma step_submitted (questionCount : number) (s : Session) (e : Event) :
  isSubmitted s = true -> is_Restart e = false ->
  let s' := step questionCount s e in
  isSubmitted s' = true /\ answers s' = answers s /\ timeLeft s' = timeLeft s /\
  isTimeUp s' = isTimeUp s.
Proof.
  intros Hsub He. destruct e; simpl; try done.
  - unfold tick, timer_running. by rewrite Hsub.
  - unfold handleAnswer. by rewrite Hsub.
Qed.

(** X11. A submitted session is frozen: whatever happens next, short of a
    restart, it stays submitted with the same answers, the same score, the
    same remaining time and the same time-up flag. No tick and no click on
    an option changes the result once it is shown. *)
Theorem submitted_session_frozen (questionCount : number) (s : Session)
    (es : list Event) :
  isSubmitted s = true -> Forall (fun e => is_Restart e = false) es ->
  let s' := run questionCount s es in
  isSubmitted s' = true /\ answers s' = answers s /\ score s' = score s /\
  timeLeft s' = timeLeft s /\ isTimeUp s' = isTimeUp s.
Proof.
  intros Hsub Hes. revert s Hsub.
  induction Hes as [|e es He _ IH]; intros s Hsub; [done|].
  simpl. change (fold_left (step questionCount) es ?x) with (run questionCount x es).
  destruct (step_submitted questionCount s e Hsub He) as (Hsub' & Ha & Ht & Hu).
  destruct (IH _ Hsub') as (-> & Ha' & Hs' & -> & ->).
  unfold score in *. rewrite Ha', Ha. done.
Qed.

(** Witness of X11: a voluntary submission, then a tick, a click on an
    option, and the dialog opened and confirmed again. *)
Lemma submitted_session_frozen_witness :
  let s := run (Num 2) (initialSession (Num 2))
             [Loaded [plain_1; plain_2]; Answer 0 "x"; SubmitRequest; Submit] in
  let s' := run (Num 2) s [Tick; Answer 1 "y"; SubmitRequest; Submit] in
  answers s' = answers s /\ timeLeft s' = timeLeft s.
Proof.
  intros s s'.
  assert (Hfrozen := submitted_session_frozen (Num 2) s
            [Tick; Answer 1 "y"; SubmitRequest; Submit] eq_refl
            ltac:(repeat constructor)).
  destruct Hfrozen as (_ & Ha & _ & Ht & _). split; [exact Ha|exact Ht].
Defined.

(** X12. The confirmation dialog is transparent to the session: opening
    it and cancelling it restores the session; a tick commutes with
    opening the dialog and with closing it, and so does an answer, so the
    timer is not paused and the answers are not locked while the dialog is
    open; and confirming gives the same session whether or not the dialog
    was opened first. *)
Theorem confirm_dialog_transparent (s : Session) (i : Z) (sel : string) :
  (showSubmitConfirm s = false -> handleSubmitCancel (handleSubmitRequest s) = s) /\
  tick (handleSubmitRequest s) = handleSubmitRequest (tick s) /\
  tick (handleSubmitCancel s) = handleSubmitCancel (tick s) /\
  handleAnswer (handleSubmitRequest s) i sel =
    match handleAnswer s i sel with
    | inr s' => inr (handleSubmitRequest s')
    | inl error => inl error
    end /\
  handleAnswer (handleSubmitCancel s) i sel =
    match handleAnswer s i sel with
    | inr s' => inr (handleSubmitCancel s')
    | inl error => inl error
    end /\
  handleSubmit (handleSubmitRequest s) = handleSubmit s.
Proof.
  split; [|split; [|split; [|split; [|split]]]].
  - intros Hshow. destruct s. simpl in *. by subst.
  - unfold tick, timer_callback, timer_running. simpl. by repeat case_match.
  - unfold tick, timer_callback, timer_running. simpl. by repeat case_match.
  - unfold handleAnswer. simpl. by repeat case_match.
  - unfold handleAnswer. simpl. by repeat case_match.
  - done.
Qed.

(** ** Invariants of the timer *)

Lemma step_timer_consistent (questionCount : number) (s : Session) (e : Event) :
  timer_consistent s -> timer_consistent (step questionCount s e).
Proof.
  unfold timer_consistent. intros Hs. destruct e; simpl; try done.
  - unfold tick. destruct (timer_running s) eqn:Hrun; [|exact Hs].
    unfold timer_running in Hrun. apply negb_true_iff, orb_false_iff in Hrun.
    destruct Hrun as [_ Hup]. unfold timer_callback.
    destruct (num_le (timeLeft s) (Num 1)); simpl; [done|]. by rewrite Hup.
  - unfold handleAnswer. destruct (isSubmitted s) eqn:Hsub; [by rewrite Hsub|].
    destruct (array_get (topicQuestions s) questionIndex0); [|by rewrite Hsub].
    simpl. by rewrite Hsub.
  - intros Hup. by destruct (Hs Hup) as [_ ->].
Qed.

(** X13. In every session that the page can reach from its initial state,
    whatever the count and the events, the time-up flag implies that the
    session is submitted and that no time is left: the results never say
    that the time is up for a quiz that was handed in with time to
    spare. *)
Theorem timeUp_implies_submitted (questionCount : number) (es : list Event) :
  let s := run questionCount (initialSession questionCount) es in
  isTimeUp s = true -> isSubmitted s = true /\ timeLeft s = Num 0.
Proof.
  intros s. unfold s.
  assert (Hinv : forall s0, timer_consistent s0 ->
            timer_consistent (run questionCount s0 es)).
  { induction es as [|e es IH]; intros s0 Hs0; [done|].
    simpl. apply IH. by apply step_timer_consistent. }
  apply Hinv. unfold timer_consistent. done.
Qed.

(** Witness of X13: a quiz of one question that runs out of time. *)
Lemma timeUp_implies_submitted_witness :
  let s := run (Num 1) (initialSession (Num 1)) (replicate 30 Tick) in
  isSubmitted s = true /\ timeLeft s = Num 0.
Proof.
  apply (timeUp_implies_submitted (Num 1) (replicate 30 Tick)).
  vm_compute. reflexivity.
Defined.

Lemma step_within_budget (count : Z) (s : Session) (e : Event) :
  0 <= count -> count * 30 <= MAX_SAFE_INTEGER -> within_budget count s ->
  within_budget count (step (Num count) s e).
Proof.
  intros Hcount Hsafe (t & Ht & Hrange). destruct e; simpl; try (by exists t).
  - unfold tick, timer_callback. destruct (timer_running s); [|by exists t].
    rewrite Ht. simpl. destruct (t <=? 1) eqn:Hle.
    + exists 0. split; [done|lia].
    + exists (t - 1). simpl. rewrite Number_of_safe by lia. split; [done|lia].
  - unfold handleAnswer. repeat case_match; simplify_eq; by exists t.
  - exists (count * 30). simpl. rewrite Number_of_safe by lia. split; [done|lia].
Qed.

(** X14. For a count that is not negative and whose budget of 30 seconds
    for each requested question is a safe integer, the remaining time of
    every session that the page can reach is an integer between 0 and
    that budget: the clock never shows a negative time and never more
    than the budget. *)
Theorem timeLeft_within_budget (count : Z) (es : list Event) :
  0 <= count -> count * 30 <= MAX_SAFE_INTEGER ->
  exists t, timeLeft (run (Num count) (initialSession (Num count)) es) = Num t /\
    0 <= t <= 30 * count.
Proof.
  intros Hcount Hsafe.
  assert (Hinv : forall s0, within_budget count s0 ->
            within_budget count (run (Num count) s0 es)).
  { induction es as [|e es IH]; intros s0 Hs0; [done|].
    simpl. apply IH. by apply step_within_budget. }
  apply Hinv. exists (count * 30). simpl. rewrite Number_of_safe by lia.
  split; [done|lia].
Qed.

(** Witness of X14: two questions, some ticks around a restart. *)
Lemma timeLeft_within_budget_witness :
  exists t, timeLeft (run (Num 2) (initialSession (Num 2))
                        [Tick; Tick; Submit; Restart; Tick]) = Num t /\
    0 <= t <= 30 * 2.
Proof. apply (timeLeft_within_budget 2); [lia|by vm_compute]. Defined.

(** ** The answers and the questions they belong to *)

Lemma step_answers_consistent (questionCount : number) (s : Session) (e : Event) :
  is_Loaded e = false -> answers_consistent s ->
  answers_consistent (step questionCount s e).
Proof.
  intros He [Hnd Hall]. destruct e; simpl; try done.
  - unfold tick, timer_callback. by repeat case_match.
  - unfold handleAnswer. destruct (isSubmitted s); [done|].
    destruct (array_get (topicQuestions s) questionIndex0) as [q|] eqn:Hq; [|done].
    split; simpl.
    + by apply upsert_answer_NoDup.
    + intros a [->|[Ha Hne]]%upsert_answer_elem.
      * exists q. done.
      * by apply Hall.
  - split; simpl; [constructor|]. intros a Ha. by apply elem_of_nil in Ha.
Qed.

Lemma run_answers_consistent (questionCount : number) (es : list Event) (s : Session) :
  Forall (fun e => is_Loaded e = false) es -> answers_consistent s ->
  answers_consistent (run questionCount s es).
Proof.
  intros Hes. revert s. induction Hes as [|e es He _ IH]; intros s Hs; [done|].
  simpl. apply IH. by apply step_answers_consistent.
Qed.

(** Pairwise distinct indices inside [0, n) are at most [n]. *)
Lemma indices_bounded (indices : list Z) (n : nat) :
  NoDup indices -> (forall i, i ∈ indices -> 0 <= i < Z.of_nat n) ->
  (length indices <= n)%nat.
Proof.
  intros Hnd Hin.
  assert (Hsub : indices ⊆+ seqZ 0 (Z.of_nat n)).
  { apply NoDup_submseteq; [done|]. intros i Hi. apply elem_of_seqZ.
    specialize (Hin i Hi). lia. }
  apply submseteq_length in Hsub. rewrite length_seqZ in Hsub. lia.
Qed.

Lemma answers_consistent_range (s : Session) (a : QuizAnswer) :
  answers_consistent s -> a ∈ answers s ->
  0 <= questionIndex a < Z.of_nat (length (topicQuestions s)).
Proof.
  intros [_ Hall] Ha. destruct (Hall a Ha) as (q & Hq & _).
  apply array_get_Some. by rewrite Hq.
Qed.

(** The sessions of a page whose load settles once: events, the load,
    more events. *)
Lemma single_load_consistent (questionCount : number) (es1 es2 : list Event)
    (qs : list Question) :
  Forall (fun e => is_Loaded e = false) es1 ->
  Forall (fun e => is_Loaded e = false) es2 ->
  let s := run questionCount (initialSession questionCount)
             (es1 ++ Loaded qs :: es2) in
  answers_consistent s /\ topicQuestions s = qs.
Proof.
  intros Hes1 Hes2 s.
  destruct (run_stays_empty questionCount es1 (initialSession questionCount) Hes1)
    as [Hq Ha]; [done|done|].
  set (s1 := run questionCount (initialSession questionCount) es1) in *.
  assert (Hs : s = run questionCount (setTopicQuestions s1 qs) es2).
  { unfold s, s1, run. by rewrite fold_left_app. }
  rewrite Hs. split.
  - apply run_answers_consistent; [done|]. split; simpl.
    + rewrite Ha. constructor.
    + rewrite Ha. intros a Hin. by apply elem_of_nil in Hin.
  - by rewrite run_topicQuestions.
Qed.

(** X15. On a page whose load settles once, every recorded answer points
    at a question of the quiz, its correctness flag says whether its
    option is the answer of that question, and no two answers share an
    index; so there are never more answers than questions, and never more
    correct answers than answers. *)
Theorem answers_point_at_questions (questionCount : number) (es1 es2 : list Event)
    (qs : list Question) :
  Forall (fun e => is_Loaded e = false) es1 ->
  Forall (fun e => is_Loaded e = false) es2 ->
  let s := run questionCount (initialSession questionCount)
             (es1 ++ Loaded qs :: es2) in
  (forall a, a ∈ answers s ->
     exists q, qs !! Z.to_nat (questionIndex a) = Some q /\
       0 <= questionIndex a < Z.of_nat (length qs) /\
       (isCorrect a = true <-> selectedAnswer a = answer q)) /\
  NoDup (questionIndex <$> answers s) /\
  (answeredCount s <= length qs)%nat /\
  (score s <= answeredCount s)%nat.
Proof.
  intros Hes1 Hes2 s.
  destruct (single_load_consistent questionCount es1 es2 qs Hes1 Hes2)
    as [Hcons Hqs].
  fold s in Hcons, Hqs. split; [|split; [|split]].
  - intros a Ha. pose proof (answers_consistent_range s a Hcons Ha) as Hrange.
    destruct Hcons as [_ Hall]. destruct (Hall a Ha) as (q & Hq & Hcorrect).
    rewrite Hqs in Hq, Hrange. exists q. split; [|split; [done|]].
    + unfold array_get in Hq. by destruct (questionIndex a <? 0).
    + rewrite Hcorrect. apply String.eqb_eq.
  - by destruct Hcons.
  - unfold answeredCount. rewrite <- (length_fmap questionIndex), <- Hqs.
    apply indices_bounded; [by destruct Hcons|].
    intros i (a & -> & Ha)%list_elem_of_fmap.
    by apply answers_consistent_range.
  - unfold score, answeredCount. apply List.filter_length_le.
Qed.

(** Witness of X15: two answers after the load of two questions. *)
Lemma answers_point_at_questions_witness :
  let s := run (Num 2) (initialSession (Num 2))
             ([Tick] ++ Loaded [plain_1; plain_2] :: [Answer 0 "x"; Answer 1 "x"]) in
  (answeredCount s <= 2)%nat /\ (score s <= answeredCount s)%nat.
Proof.
  intros s.
  destruct (answers_point_at_questions (Num 2) [Tick] [Answer 0 "x"; Answer 1 "x"]
              [plain_1; plain_2] ltac:(repeat constructor) ltac:(repeat constructor))
    as (_ & _ & Hcount & Hscore).
  split; [exact Hcount|exact Hscore].
Defined.

(** ** The cards of the results and the numbers above them *)

Lemma filter_ext_in {A} (P Q : A -> Prop) `{forall x, Decision (P x)}
    `{forall x, Decision (Q x)} (l : list A) :
  (forall x, x ∈ l -> P x <-> Q x) -> filter P l = filter Q l.
Proof.
  induction l as [|a l IH]; intros Hiff; [done|].
  rewrite !filter_cons.
  rewrite IH by (intros x Hx; apply Hiff; by right).
  pose proof (Hiff a ltac:(by left)).
  repeat case_decide; tauto.
Qed.

Lemma filter_all {A} (P : A -> Prop) `{forall x, Decision (P x)} (l : list A) :
  (forall x, x ∈ l -> P x) -> filter P l = l.
Proof.
  induction l as [|a l IH]; intros Hall; [done|].
  rewrite filter_cons_True by (apply Hall; by left).
  f_equal. apply IH. intros x Hx. apply Hall. by right.
Qed.

Lemma count_point_update (L : list nat) (k : nat) (f f' : nat -> CardStatus)
    (st : CardStatus) :
  NoDup L -> k ∈ L -> (forall i, i ≠ k -> f i = f' i) ->
  (length (filter (fun i => f i = st) L) + (if decide (f' k = st) then 1 else 0) =
   length (filter (fun i => f' i = st) L) + (if decide (f k = st) then 1 else 0))%nat.
Proof.
  intros Hnd Hk Hagree. induction L as [|x L IH]; [by apply elem_of_nil in Hk|].
  apply NoDup_cons in Hnd as [Hx Hnd]. rewrite !filter_cons.
  destruct (decide (x = k)) as [->|Hne].
  - assert (Hsame : filter (fun i => f i = st) L = filter (fun i => f' i = st) L).
    { apply filter_ext_in. intros i Hi. rewrite Hagree; [done|].
      intros ->. done. }
    rewrite Hsame. repeat case_decide; simpl; lia.
  - apply elem_of_cons in Hk as [->|Hk]; [done|].
    specialize (IH Hnd Hk). rewrite (Hagree x Hne).
    destruct (decide (f' k = st)), (decide (f k = st)), (decide (f' x = st));
      simpl in *; lia.
Qed.

(** The statuses of the cards, counted: the correct ones are the correct
    answers, the wrong ones the other answers, and the rest of the [n]
    cards are not answered. *)
Lemma cards_counts (A : list QuizAnswer) (n : nat) :
  NoDup (questionIndex <$> A) ->
  (forall a, a ∈ A -> 0 <= questionIndex a < Z.of_nat n) ->
  let st := fun i : nat =>
    status_of (List.find (fun a => questionIndex a =? Z.of_nat i) A) in
  length (filter (fun i => st i = AnsweredCorrect) (seq 0 n)) =
    length (List.filter isCorrect A) /\
  (length (filter (fun i => st i = NotAnswered) (seq 0 n)) + length A = n)%nat /\
  (length (filter (fun i => st i = AnsweredWrong) (seq 0 n)) +
     length (List.filter isCorrect A) = length A)%nat.
Proof.
  induction A as [|a A IH]; intros Hnd Hrange st.
  - unfold st. simpl. split; [|split].
    + by rewrite filter_none.
    + rewrite filter_all by done. rewrite length_seq. lia.
    + by rewrite filter_none.
  - simpl in Hnd. apply NoDup_cons in Hnd as [Ha Hnd].
    destruct IH as (IHc & IHn & IHw); [done|intros b Hb; apply Hrange; by right|].
    set (st' := fun i : nat =>
      status_of (List.find (fun a => questionIndex a =? Z.of_nat i) A)) in *.
    set (k := Z.to_nat (questionIndex a)).
    pose proof (Hrange a ltac:(by left)) as Hka.
    assert (Hk : k ∈ seq 0 n) by (apply elem_of_seq; unfold k; lia).
    assert (Hagree : forall i, i ≠ k -> st i = st' i).
    { intros i Hi. unfold st, st'. simpl.
      destruct (questionIndex a =? Z.of_nat i) eqn:Hai; [|done]. unfold k in Hi. lia. }
    assert (Hst'k : st' k = NotAnswered).
    { unfold st'. replace (Z.of_nat k) with (questionIndex a) by (unfold k; lia).
      by rewrite (proj2 (find_index_None (questionIndex a) A) Ha). }
    assert (Hstk : st k = if isCorrect a then AnsweredCorrect else AnsweredWrong).
    { unfold st. simpl. replace (Z.of_nat k) with (questionIndex a) by (unfold k; lia).
      by rewrite Z.eqb_refl. }
    pose proof (count_point_update (seq 0 n) k st st' AnsweredCorrect
                  (NoDup_seq 0 n) Hk Hagree) as Hc.
    pose proof (count_point_update (seq 0 n) k st st' NotAnswered
                  (NoDup_seq 0 n) Hk Hagree) as Hn.
    pose proof (count_point_update (seq 0 n) k st st' AnsweredWrong
                  (NoDup_seq 0 n) Hk Hagree) as Hw.
    rewrite Hst'k, Hstk in Hc, Hn, Hw. simpl.
    revert Hc Hn Hw. destruct (isCorrect a); simpl; intros Hc Hn Hw;
      repeat match goal with
             | H : context [decide ?P] |- _ => destruct (decide P); try done
             end;
      cbv beta delta [st'] in *; lia.
Qed.

Lemma result_cards_alt (s : Session) :
  result_cards s =
  (fun i : nat => status_of (getAnswerForQuestion s (Z.of_nat i)))
    <$> seq 0 (length (topicQuestions s)).
Proof. unfold result_cards. apply imap_seq_0. Qed.

Lemma length_filter_fmap {A B} (P : B -> Prop) `{forall y, Decision (P y)}
    (f : A -> B) (l : list A) :
  length (filter P (f <$> l)) = length (filter (fun x => P (f x)) l).
Proof.
  induction l as [|x l IH]; [done|]. rewrite fmap_cons, !filter_cons.
  destruct (decide (P (f x))); simpl; by rewrite IH.
Qed.

(** X16. On a page whose load settles once, the detailed results agree
    with the score above them: the cards marked correct are as many as the
    score, the cards marked wrong as many as the answers that are not
    correct, and there is one card for each question. *)
Theorem result_cards_match_score (questionCount : number) (es1 es2 : list Event)
    (qs : list Question) :
  Forall (fun e => is_Loaded e = false) es1 ->
  Forall (fun e => is_Loaded e = false) es2 ->
  let s := run questionCount (initialSession questionCount)
             (es1 ++ Loaded qs :: es2) in
  length (result_cards s) = length qs /\
  length (filter (fun c => c = AnsweredCorrect) (result_cards s)) = score s /\
  (length (filter (fun c => c = AnsweredWrong) (result_cards s)) + score s
     = answeredCount s)%nat.
Proof.
  intros Hes1 Hes2 s.
  destruct (single_load_consistent questionCount es1 es2 qs Hes1 Hes2)
    as [Hcons Hqs].
  fold s in Hcons, Hqs.
  destruct (cards_counts (answers s) (length (topicQuestions s)))
    as (Hc & _ & Hw).
  { by destruct Hcons. }
  { intros a Ha. by apply answers_consistent_range. }
  rewrite result_cards_alt, !length_filter_fmap, length_fmap, length_seq.
  split; [by rewrite Hqs|]. split; [exact Hc|exact Hw].
Qed.

(** Witness of X16: one correct and one wrong answer, one question left. *)
Lemma result_cards_match_score_witness :
  let s := run (Num 3) (initialSession (Num 3))
             ([] ++ Loaded [plain_1; plain_2; plain_3]
                 :: [Answer 2 "x"; Answer 0 "x"; Submit]) in
  result_cards s = [AnsweredCorrect; NotAnswered; AnsweredWrong] /\
  length (filter (fun c => c = AnsweredCorrect) (result_cards s)) = score s.
Proof.
  intros s. split; [vm_compute; reflexivity|].
  apply (result_cards_match_score (Num 3) [] [Answer 2 "x"; Answer 0 "x"; Submit]
           [plain_1; plain_2; plain_3]); repeat constructor.
Defined.

(** X17. On a page whose load settles once, the confirmation dialog
    counts right: the number of unanswered questions that it shows is the
    number of questions without a recorded answer, and it shows the line
    exactly when there is such a question. *)
Theorem dialog_unanswered_count (questionCount : number) (es1 es2 : list Event)
    (qs : list Question) :
  Forall (fun e => is_Loaded e = false) es1 ->
  Forall (fun e => is_Loaded e = false) es2 ->
  let s := run questionCount (initialSession questionCount)
             (es1 ++ Loaded qs :: es2) in
  let unanswered := filter (fun c => c = NotAnswered) (result_cards s) in
  dialog_unanswered s =
  if decide (unanswered = []) then None else Some (Z.of_nat (length unanswered)).
Proof.
  intros Hes1 Hes2 s unanswered.
  destruct (single_load_consistent questionCount es1 es2 qs Hes1 Hes2)
    as [Hcons Hqs].
  fold s in Hcons, Hqs.
  destruct (cards_counts (answers s) (length (topicQuestions s)))
    as (_ & Hn & _).
  { by destruct Hcons. }
  { intros a Ha. by apply answers_consistent_range. }
  assert (Hlen : (length unanswered + answeredCount s
                  = length (topicQuestions s))%nat).
  { unfold unanswered, answeredCount.
    by rewrite result_cards_alt, length_filter_fmap. }
  unfold dialog_unanswered.
  destruct (answeredCount s <? length (topicQuestions s))%nat eqn:Hlt.
  - apply Nat.ltb_lt in Hlt. rewrite decide_False.
    + f_equal. lia.
    + intros Hnil. rewrite Hnil in Hlen. simpl in Hlen. lia.
  - apply Nat.ltb_ge in Hlt. rewrite decide_True; [done|].
    apply length_zero_iff_nil. lia.
Qed.

(** Witness of X17: one of three questions answered when the dialog opens. *)
Lemma dialog_unanswered_count_witness :
  dialog_unanswered
    (run (Num 3) (initialSession (Num 3))
       ([] ++ Loaded [plain_1; plain_2; plain_3] :: [Answer 1 "y"; SubmitRequest]))
  = Some 2.
Proof.
  rewrite (dialog_unanswered_count (Num 3) [] [Answer 1 "y"; SubmitRequest]
             [plain_1; plain_2; plain_3]) by repeat constructor.
  vm_compute. reflexivity.
Defined.

(** ** The clock *)

Lemma pretty_N_one_digit (n : N) :
  (n < 10)%N -> pretty n = String (pretty_N_char n) "".
Proof.
  intros Hn. unfold pretty, pretty_N. case_decide as Hz; [by subst|].
  rewrite pretty_N_go_step by lia.
  rewrite N.div_small, N.mod_small by done. by rewrite pretty_N_go_0.
Qed.

Lemma pretty_N_two_digits (n : N) :
  (10 <= n < 100)%N ->
  pretty n = String (pretty_N_char (n `div` 10)) (String (pretty_N_char (n `mod` 10)) "").
Proof.
  intros Hn. unfold pretty, pretty_N. rewrite decide_False by lia.
  assert (Hq : (0 < n `div` 10 < 10)%N).
  { split; [apply N.div_str_pos; lia|apply N.Div0.div_lt_upper_bound; lia]. }
  rewrite pretty_N_go_step by lia.
  rewrite pretty_N_go_step by lia.
  rewrite (N.div_small (n `div` 10)), (N.mod_small (n `div` 10)) by lia.
  by rewrite pretty_N_go_0.
Qed.

Lemma padStart_pretty (n : N) :
  (n < 100)%N ->
  padStart 2 "0" (pretty n) =
  String (pretty_N_char (n `div` 10)) (String (pretty_N_char (n `mod` 10)) "").
Proof.
  intros Hn. destruct (decide (n < 10)%N) as [Hsmall|Hbig].
  - rewrite pretty_N_one_digit by done.
    rewrite N.div_small, N.mod_small by done. reflexivity.
  - rewrite pretty_N_two_digits by lia. reflexivity.
Qed.

Lemma pretty_Z_of_N (n : N) : pretty (Z.of_N n) = pretty n.
Proof. by destruct n. Qed.

Lemma padStart_digits (z : Z) :
  0 <= z < 100 ->
  padStart 2 "0" (number_toString (Num z)) =
  String (digit_char (z / 10)) (String (digit_char (z mod 10)) "").
Proof.
  intros Hz. simpl. rewrite <- (Z2N.id z) at 1 by lia.
  rewrite pretty_Z_of_N, padStart_pretty by lia.
  unfold digit_char. by rewrite Z2N.inj_div, Z2N.inj_mod by lia.
Qed.

Lemma formatTime_digits (s : Z) :
  0 <= s < 6000 ->
  formatTime (Num s) =
  String (digit_char (s / 60 / 10)) (String (digit_char ((s / 60) mod 10))
    (String ":" (String (digit_char (s mod 60 / 10))
       (String (digit_char ((s mod 60) mod 10)) "")))).
Proof.
  intros Hs. unfold formatTime, num_floor_div, num_rem.
  rewrite Z.rem_mod_nonneg by lia.
  rewrite !padStart_digits; [done| |].
  - pose proof (Z.mod_pos_bound s 60). lia.
  - split; [apply Z.div_pos; lia|apply Z.div_lt_upper_bound; lia].
Qed.

Lemma digit_char_inj (x y : Z) :
  0 <= x < 10 -> 0 <= y < 10 -> digit_char x = digit_char y -> x = y.
Proof.
  intros Hx Hy Heq. apply pretty_N_char_inj in Heq; lia.
Qed.

(** X18. For a remaining time from 0 up to 99 minutes and 59 seconds the
    clock shows five characters, two digits of minutes, a colon and two
    digits of seconds, and two different times never show the same
    text. *)
Theorem formatTime_mm_ss (s s' : Z) :
  0 <= s < 6000 -> 0 <= s' < 6000 ->
  formatTime (Num s) =
    String (digit_char (s / 60 / 10)) (String (digit_char ((s / 60) mod 10))
      (String ":" (String (digit_char (s mod 60 / 10))
         (String (digit_char ((s mod 60) mod 10)) "")))) /\
  String.length (formatTime (Num s)) = 5%nat /\
  (formatTime (Num s) = formatTime (Num s') -> s = s').
Proof.
  intros Hs Hs'. rewrite !formatTime_digits by done.
  split; [done|]. split; [done|].
  intros [= H1 H2 H3 H4].
  apply digit_char_inj in H1, H2, H3, H4; Z.div_mod_to_equations; lia.
Qed.

(** Witness of X18: five minutes and seven seconds. *)
Lemma formatTime_mm_ss_witness : formatTime (Num 307) = "05:07".
Proof.
  destruct (formatTime_mm_ss 307 307 ltac:(lia) ltac:(lia)) as [Hshape _].
  rewrite Hshape. reflexivity.
Defined.

(** ** Line breaks in the texts *)

Lemma string_ind2 (P : string -> Prop) :
  P "" -> (forall c, P (String c "")) ->
  (forall c c' rest, P rest -> P (String c' rest) -> P (String c (String c' rest))) ->
  forall text, P text.
Proof.
  intros Hnil Hone Hstep text.
  assert (Hboth : P text /\ forall c, P (String c text)).
  { induction text as [|c' rest [IH1 IH2]]; [by split|].
    split; [apply IH2|]. intros c. apply Hstep; [done|apply IH2]. }
  apply Hboth.
Qed.

Lemma unescape_newlines_head (c : ascii) (rest : string) :
  exists tail, unescape_newlines (String c rest) = String c tail \/
               unescape_newlines (String c rest) = String "010" tail.
Proof.
  destruct rest as [|c' rest']; simpl; [by exists ""; left|].
  destruct (bool_decide (c = backslash) && bool_decide (c' = "n"%char));
    eexists; [by right|by left].
Qed.

Lemma unescape_newlines_clean (text : string) : has_escape (unescape_newlines text) = false.
Proof.
  induction text as [| |c c' rest IH1 IH2] using string_ind2; [done|done|].
  change (unescape_newlines (String c (String c' rest)))
    with (if bool_decide (c = backslash) && bool_decide (c' = "n"%char)
          then String "010"%char (unescape_newlines rest)
          else String c (unescape_newlines (String c' rest))).
  destruct (bool_decide (c = backslash) && bool_decide (c' = "n"%char)) eqn:Hpair.
  - destruct (unescape_newlines rest) as [|d tail] eqn:Hrest; [done|].
    change (has_escape (String "010" (String d tail)))
      with ((bool_decide ("010"%char = backslash) && bool_decide (d = "n"%char))
            || has_escape (String d tail)).
    by rewrite IH1.
  - destruct (unescape_newlines_head c' rest) as [tail [Htail|Htail]];
      rewrite Htail in IH2 |- *.
    + change (has_escape (String c (String c' tail)))
        with ((bool_decide (c = backslash) && bool_decide (c' = "n"%char))
              || has_escape (String c' tail)).
      by rewrite Hpair, IH2.
    + change (has_escape (String c (String "010" tail)))
        with ((bool_decide (c = backslash) && bool_decide ("010"%char = "n"%char))
              || has_escape (String "010" tail)).
      rewrite IH2. by rewrite andb_false_r.
Qed.

Lemma unescape_newlines_fixed (text : string) :
  has_escape text = false -> unescape_newlines text = text.
Proof.
  induction text as [| |c c' rest IH1 IH2] using string_ind2; [done|done|].
  change (has_escape (String c (String c' rest)))
    with ((bool_decide (c = backslash) && bool_decide (c' = "n"%char))
          || has_escape (String c' rest)).
  intros [Hpair Hrest]%orb_false_iff.
  change (unescape_newlines (String c (String c' rest)))
    with (if bool_decide (c = backslash) && bool_decide (c' = "n"%char)
          then String "010"%char (unescape_newlines rest)
          else String c (unescape_newlines (String c' rest))).
  rewrite Hpair. by rewrite IH2.
Qed.

Lemma has_escape_backslash (text : string) :
  has_char backslash text = false -> has_escape text = false.
Proof.
  induction text as [| |c c' rest IH1 IH2] using string_ind2; [done|done|].
  change (has_escape (String c (String c' rest)))
    with ((bool_decide (c = backslash) && bool_decide (c' = "n"%char))
          || has_escape (String c' rest)).
  simpl. intros [Hc Hrest]%orb_false_iff. rewrite Hc. simpl.
  apply IH2. simpl. exact Hrest.
Qed.

Lemma unescape_newlines_length (text : string) :
  (String.length (unescape_newlines text) <= String.length text)%nat.
Proof.
  induction text as [| |c c' rest IH1 IH2] using string_ind2; [done|done|].
  change (unescape_newlines (String c (String c' rest)))
    with (if bool_decide (c = backslash) && bool_decide (c' = "n"%char)
          then String "010"%char (unescape_newlines rest)
          else String c (unescape_newlines (String c' rest))).
  destruct (bool_decide (c = backslash) && bool_decide (c' = "n"%char));
    simpl in *; lia.
Qed.

(** X19. The replacement of the escaped line breaks leaves no backslash
    with an [n] behind it, so applying it again changes nothing; a text
    without such a pair, and so every text without a backslash, is shown
    as it is; and the shown text is never longer than the stored one. *)
Theorem unescape_newlines_idempotent (text : string) :
  has_escape (unescape_newlines text) = false /\
  unescape_newlines (unescape_newlines text) = unescape_newlines text /\
  (has_escape text = false -> unescape_newlines text = text) /\
  (has_char backslash text = false -> unescape_newlines text = text) /\
  (String.length (unescape_newlines text) <= String.length text)%nat.
Proof.
  split; [apply unescape_newlines_clean|].
  split; [apply unescape_newlines_fixed, unescape_newlines_clean|].
  split; [apply unescape_newlines_fixed|].
  split; [|apply unescape_newlines_length].
  intros Hno. by apply unescape_newlines_fixed, has_escape_backslash.
Qed.

Example unescape_newlines_run :
  unescape_newlines
    (String "a" (String backslash (String "n" (String "b"
       (String backslash (String backslash (String "n" (String "c" "")))))))) =
  String "a" (String "010" (String "b" (String backslash (String "010"
    (String "c" ""))))).
Proof. reflexivity. Qed.

(** ** Topic titles *)

Lemma own_property_Some (table : list (string * string)) (key title : string) :
  NoDup (fst <$> table) -> (key, title) ∈ table ->
  own_property table key = Some title.
Proof.
  induction table as [|[k v] table IH]; intros Hnd Hin;
    [by apply elem_of_nil in Hin|].
  simpl in Hnd. apply NoDup_cons in Hnd as [Hk Hnd]. simpl.
  apply elem_of_cons in Hin as [[= -> ->]|Hin].
  - by rewrite decide_True.
  - rewrite decide_False; [by apply IH|]. intros ->. apply Hk.
    by apply (list_elem_of_fmap_2 fst _ (key, title)).
Qed.

Lemma own_property_None (table : list (string * string)) (key : string) :
  key ∉ fst <$> table -> own_property table key = None.
Proof.
  induction table as [|[k v] table IH]; intros Hnotin; [done|].
  simpl in *. apply not_elem_of_cons in Hnotin as [Hne Hnotin].
  rewrite decide_False by done. by apply IH.
Qed.

Lemma topicTitles_keys_NoDup : NoDup (fst <$> topicTitles).
Proof. apply (bool_decide_unpack _). vm_compute. reflexivity. Qed.

Lemma topicTitles_nonempty : Forall (fun kv => kv.2 ≠ "") topicTitles.
Proof. apply (bool_decide_unpack _). vm_compute. reflexivity. Qed.

Lemma topicTitles_not_inherited :
  Forall (fun kv => kv.1 ∉ Object_prototype_keys) topicTitles.
Proof. apply (bool_decide_unpack _). vm_compute. reflexivity. Qed.

(** X20. [getTopicTitle] returns the title of the table for each of its
    thirty slugs, and the fallback ["Quiz"] for every other slug, except
    for the twelve names that the table inherits from [Object.prototype],
    for which the lookup finds the inherited member instead of nothing;
    the returned title is never empty. *)
Theorem getTopicTitle_fallback (slug : string) :
  (forall title, (slug, title) ∈ topicTitles -> getTopicTitle slug = Title title) /\
  (slug ∉ fst <$> topicTitles -> slug ∉ Object_prototype_keys ->
     getTopicTitle slug = Title "Quiz") /\
  (slug ∈ Object_prototype_keys -> getTopicTitle slug = InheritedValue slug) /\
  getTopicTitle slug ≠ Title "".
Proof.
  split; [|split; [|split]].
  - intros title Hin. unfold getTopicTitle.
    rewrite (own_property_Some _ _ title topicTitles_keys_NoDup Hin).
    pose proof topicTitles_nonempty as Hne. rewrite Forall_forall in Hne.
    specialize (Hne _ Hin). simpl in Hne. by rewrite decide_False.
  - intros Hkey Hproto. unfold getTopicTitle.
    rewrite own_property_None by done. by rewrite decide_False.
  - intros Hproto. unfold getTopicTitle. rewrite own_property_None.
    + by rewrite decide_True.
    + intros ([k v] & -> & Hin)%list_elem_of_fmap.
      pose proof topicTitles_not_inherited as Hni. rewrite Forall_forall in Hni.
      by apply (Hni _ Hin).
  - unfold getTopicTitle. destruct (own_property topicTitles slug) as [title|].
    + case_decide; [done|]. intros [= ->]. done.
    + by case_decide.
Qed.

(** Witness of X20: a slug of the table, a slug that is unknown, and the
    slug [toString]. *)
Lemma getTopicTitle_fallback_witness :
  getTopicTitle "7269" = Title "7269 Sayılı Kanun" /\
  getTopicTitle "matematik" = Title "Quiz" /\
  getTopicTitle "toString" = InheritedValue "toString".
Proof.
  split; [|split].
  - apply (getTopicTitle_fallback "7269"). vm_compute.
    apply list_elem_of_In. do 4 right. left. reflexivity.
  - apply (getTopicTitle_fallback "matematik").
    + apply (bool_decide_unpack _). vm_compute. reflexivity.
    + apply (bool_decide_unpack _). vm_compute. reflexivity.
  - apply (getTopicTitle_fallback "toString").
    apply (bool_decide_unpack _). vm_compute. reflexivity.
Defined.

(** ** The timer and the rest of the session *)




